(** * footsizer-backend: the image-measurement service of [app.py]

    A shallow embedding of [app.py] and of the OpenCV primitives it calls,
    with the properties of the measurement pipeline proved over it.

    Conventions.
    - Python [float] values are modelled by exact rationals ([Q]); the
      built-in [round(x, 2)] is rounding to the nearest hundredth, ties to
      even, on the exact value.
    - Python exceptions are values of [Exn]; a computation that may log,
      touch the file system or raise is a state-and-error function [Py A].
    - Images are row-major lists of rows, as the [numpy] arrays OpenCV
      returns ([shape = (height, width)]); a contour is the list of its
      integer points.
    - [logging] f-strings are kept as structured records ([LogMsg]). *)

From Stdlib Require Import ZArith QArith Qround Qabs Lia Lqa Ascii.
From stdpp Require Import gmap strings list fin_maps.

Open Scope Z_scope.

(** ** Data model *)

Definition Point : Type := Z * Z.
Definition Contour : Type := list Point.
Definition Gray : Type := list (list Z).
Definition Pixel : Type := Z * Z * Z.
Definition BGR : Type := list (list Pixel).
Definition Bytes : Type := list Z.

Inductive Exn : Type :=
| CvError (what : string)
| ValueError (what : string)
| BinasciiError (what : string).

Inductive LogLevel : Type := INFO | WARNING | ERROR.

Inductive LogMsg : Type :=
| MsgLoadFailed (image_path : string)
| MsgLoaded (image_path : string)
| MsgLargestFound
| MsgBoundingBox (w h : Z)
| MsgSize (foot_length_cm : Q)
| MsgNoContour
| MsgSizeError (e : Exn)
| MsgNoImageData
| MsgBadType
| MsgDecoded
| MsgSaved (file_path : string)
| MsgSaveError
| MsgSizeOk (foot_size_cm : Q)
| MsgNotDetected
| MsgRequestError (e : Exn).

(** The part of the process state the service reads or writes: the files of
    the upload folder, the log, and how many uuids were drawn so far. *)
Record World : Type := mkWorld {
  fs : gmap string Bytes;
  log : list (LogLevel * LogMsg);
  uuids : nat
}.

(** ** Computations: state passing with exceptions *)

Definition Py (A : Type) : Type := World -> (Exn + A) * World.

#[global] Instance Py_ret : MRet Py := fun A a w => (inr a, w).
#[global] Instance Py_bind : MBind Py := fun A B f m w =>
  match m w with
  | (inl e, w') => (inl e, w')
  | (inr a, w') => f a w'
  end.

Definition lift {A} (r : Exn + A) : Py A := fun w => (r, w).

Definition try_except {A} (body : Py A) (handler : Exn -> Py A) : Py A :=
  fun w =>
    match body w with
    | (inl e, w') => handler e w'
    | (inr a, w') => (inr a, w')
    end.

Definition logging (lvl : LogLevel) (msg : LogMsg) : Py unit :=
  fun w => (inr tt, mkWorld (fs w) (log w ++ [(lvl, msg)]) (uuids w)).

Definition read_file (path : string) : Py (option Bytes) :=
  fun w => (inr (fs w !! path), w).

Definition write_file (path : string) (data : Bytes) : Py unit :=
  fun w => (inr tt, mkWorld (<[path := data]> (fs w)) (log w) (uuids w)).

Definition path_exists (path : string) : Py bool :=
  fun w => (inr (bool_decide (is_Some (fs w !! path))), w).

(** ** Python built-ins used by the service *)

(** [round(x, ndigits)]: nearest multiple of [10^-ndigits], ties to even. *)
Definition round_half_even (y : Q) : Z :=
  let f := Qfloor y in
  match Qcompare (y - inject_Z f) (1 # 2) with
  | Lt => f
  | Gt => f + 1
  | Eq => if Z.even f then f else f + 1
  end.

Definition py_round (x : Q) (ndigits : nat) : Q :=
  let scale := Z.to_pos (10 ^ Z.of_nat ndigits) in
  Qmake (round_half_even (x * inject_Z (Zpos scale))) scale.

(** [max(iterable, key=...)]: the first element whose key is not exceeded;
    [ValueError] on an empty iterable. *)
Fixpoint max_from {A} (key : A -> Q) (best : A) (l : list A) : A :=
  match l with
  | [] => best
  | x :: r =>
      if Qle_bool (key x) (key best) then max_from key best r
      else max_from key x r
  end.

Definition py_max {A} (key : A -> Q) (l : list A) : Exn + A :=
  match l with
  | [] => inl (ValueError "max() arg is an empty sequence")
  | x :: r => inr (max_from key x r)
  end.

(** ** OpenCV geometry on contours

    [cv2] is a compiled dependency of [app.py]; what its routines compute
    is written out here. *)

(** The shoelace sum over the closed polygon through the points of [c], in
    their order, entered from [prev]. *)
Fixpoint shoelace (prev : Point) (c : Contour) : Z :=
  match c with
  | [] => 0
  | p :: r => (fst prev * snd p - snd prev * fst p) + shoelace p r
  end.

(** Modelled from the spec: [cv2.contourArea], an OpenCV routine with no
    source in the repository.  The enclosed area by the polygon-area
    formula: half the absolute value of the shoelace sum; zero for no
    points. *)
Definition contourArea (c : Contour) : Q :=
  match c with
  | [] => 0%Q
  | p :: _ => Qabs (inject_Z (shoelace (List.last c p) c) * (1 # 2))
  end.

(** A box [(xmin, ymin, xmax, ymax)] widened to hold one more point. *)
Definition extend (box : Z * Z * Z * Z) (p : Point) : Z * Z * Z * Z :=
  let '(xmin, ymin, xmax, ymax) := box in
  (Z.min xmin (fst p), Z.min ymin (snd p), Z.max xmax (fst p), Z.max ymax (snd p)).

(** Modelled from the spec: [cv2.boundingRect], an OpenCV routine with no
    source in the repository.  [(x, y, w, h)] from the least and greatest
    coordinates of the points: [x], [y] the least ones, [w], [h] the number
    of pixel columns and rows spanned; the empty rectangle for no points. *)
Definition boundingRect (c : Contour) : Z * Z * Z * Z :=
  match c with
  | [] => (0, 0, 0, 0)
  | p :: r =>
      let '(xmin, ymin, xmax, ymax) :=
        fold_left extend r (fst p, snd p, fst p, snd p) in
      (xmin, ymin, xmax - xmin + 1, ymax - ymin + 1)
  end.

(** What a box [(xmin, ymin, xmax, ymax)] has to do with the points it was
    folded from. *)
Definition covers (box : Z * Z * Z * Z) (p : Point) : Prop :=
  let '(xmin, ymin, xmax, ymax) := box in
  xmin <= fst p <= xmax /\ ymin <= snd p <= ymax.

Definition touched (box : Z * Z * Z * Z) (c : Contour) : Prop :=
  let '(xmin, ymin, xmax, ymax) := box in
  (exists p, In p c /\ fst p = xmin) /\ (exists p, In p c /\ snd p = ymin) /\
  (exists p, In p c /\ fst p = xmax) /\ (exists p, In p c /\ snd p = ymax).

(** ** The service *)

Definition UPLOAD_FOLDER : string := "C:\Users\Douglas\Desktop\Testes\base".
Definition CONVERSION_FACTOR : Q := 2 # 10.

Definition allowed_file_type (image_data : string) : bool :=
  existsb (fun mime_type => String.prefix mime_type image_data)
          ["data:image/png;"; "data:image/jpeg;"].

(** The OpenCV calls of [calculate_foot_size], each with the arguments the
    function passes: [imread] decodes the bytes of the file (no array for an
    unreadable file), [cvtColor(_, COLOR_BGR2GRAY)],
    [GaussianBlur(_, (5, 5), 0)], [Canny(_, 50, 150)] and
    [findContours(_, RETR_EXTERNAL, CHAIN_APPROX_SIMPLE)]. *)
Class CV2 : Type := {
  imdecode : Bytes -> option BGR;
  cvtColor : BGR -> Exn + Gray;
  GaussianBlur : Gray -> Exn + Gray;
  Canny : Gray -> Exn + Gray;
  findContours : Gray -> Exn + list Contour
}.

(** [base64.b64decode] and the stream of [uuid.uuid4().hex] values. *)
Class PyLib : Type := {
  b64decode : string -> Exn + Bytes;
  uuid4_hex : nat -> string
}.

Definition imread `{CV2} (image_path : string) : Py (option BGR) :=
  bytes ← read_file image_path;
  mret (bytes ≫= imdecode).

Definition fresh_uuid `{PyLib} : Py string :=
  fun w => (inr (uuid4_hex (uuids w)), mkWorld (fs w) (log w) (S (uuids w))).

(** [str.split(sep)] for a one-character separator, and [sep in s]. *)
Fixpoint split (sep : ascii) (s : string) : list string :=
  match s with
  | EmptyString => [EmptyString]
  | String c r =>
      if Ascii.eqb c sep then EmptyString :: split sep r
      else match split sep r with
           | h :: t => String c h :: t
           | [] => [String c EmptyString]
           end
  end.

Fixpoint contains (sep : ascii) (s : string) : bool :=
  match s with
  | EmptyString => false
  | String c r => Ascii.eqb c sep || contains sep r
  end.

(** [os.path.join] of a folder and a file name, on the Windows host of
    [UPLOAD_FOLDER]. *)
Definition path_join (folder name : string) : string :=
  (folder ++ "\" ++ name)%string.

(** What [jsonify(...)], status gives back to the client. *)
Record Response : Type := mkResponse {
  message : string;
  foot_size_cm : option Q;
  status : Z
}.

Section Service.
Context `{cv : CV2} `{py : PyLib}.

(** The body of the [try] block of [calculate_foot_size]. *)
Definition calculate_foot_size_body (image_path : string) : Py (option Q) :=
  img ← imread image_path;
  match img with
  | None =>
      logging ERROR (MsgLoadFailed image_path);;
      mret None
  | Some img =>
      logging INFO (MsgLoaded image_path);;
      gray ← lift (cvtColor img);
      blurred ← lift (GaussianBlur gray);
      edged ← lift (Canny blurred);
      contours ← lift (findContours edged);
      match contours with
      | _ :: _ =>
          largest_contour ← lift (py_max contourArea contours);
          logging INFO MsgLargestFound;;
          let '(x, y, w, h) := boundingRect largest_contour in
          logging INFO (MsgBoundingBox w h);;
          let foot_length_cm := (inject_Z w * CONVERSION_FACTOR)%Q in
          logging INFO (MsgSize foot_length_cm);;
          mret (Some (py_round foot_length_cm 2))
      | [] =>
          logging WARNING MsgNoContour;;
          mret None
      end
  end.

Definition calculate_foot_size (image_path : string) : Py (option Q) :=
  try_except (calculate_foot_size_body image_path)
    (fun e => logging ERROR (MsgSizeError e);; mret None).

(** The body of the [try] block of [upload_image]; [data] is what
    [request.get_json()] returned: no object, or the string fields of the
    JSON object. *)
Definition upload_image_body (data : option (gmap string string)) : Py Response :=
  match data ≫= (fun d => d !! "image") with
  | None =>
      logging WARNING MsgNoImageData;;
      mret (mkResponse "Nenhuma imagem fornecida." None 400)
  | Some image_data =>
      if negb (allowed_file_type image_data) then
        logging ERROR MsgBadType;;
        mret (mkResponse
                "Tipo de imagem não permitido. Apenas PNG ou JPG são aceitos."
                None 400)
      else
        let image_data :=
          if contains ","%char image_data
          then nth 1 (split ","%char image_data) EmptyString
          else image_data in
        image_bytes ← lift (b64decode image_data);
        logging INFO MsgDecoded;;
        hex ← fresh_uuid;
        let unique_filename := ("captured_image_" ++ hex ++ ".png")%string in
        let file_path := path_join UPLOAD_FOLDER unique_filename in
        write_file file_path image_bytes;;
        logging INFO (MsgSaved file_path);;
        saved ← path_exists file_path;
        if negb saved then
          logging ERROR MsgSaveError;;
          mret (mkResponse "Erro ao salvar a imagem." None 500)
        else
          foot_size_cm ← calculate_foot_size file_path;
          match foot_size_cm with
          | Some size =>
              logging INFO (MsgSizeOk size);;
              mret (mkResponse "Imagem processada com sucesso!" (Some size) 200)
          | None =>
              logging WARNING MsgNotDetected;;
              mret (mkResponse "Não foi possível detectar o pé na imagem."
                               None 400)
          end
  end.

Definition upload_image (data : option (gmap string string)) : Py Response :=
  try_except (upload_image_body data)
    (fun e =>
       logging ERROR (MsgRequestError e);;
       mret (mkResponse "Erro no processamento da imagem." None 500)).

End Service.

(** ** Reading [calculate_foot_size] as a function of the file content *)

Section Reading.
Context `{cv : CV2}.

(** Lines 50-67: what [findContours] returned for the file content
    [bytes], [None] inside when [imread] gave no image, an exception when
    a stage raised. *)
Definition contours_of (bytes : option Bytes) : Exn + option (list Contour) :=
  match bytes ≫= imdecode with
  | None => inr None
  | Some img =>
      match cvtColor img with
      | inl e => inl e
      | inr gray =>
          match GaussianBlur gray with
          | inl e => inl e
          | inr blurred =>
              match Canny blurred with
              | inl e => inl e
              | inr edged =>
                  match findContours edged with
                  | inl e => inl e
                  | inr contours => inr (Some contours)
                  end
              end
          end
      end
  end.

(** Lines 75-83 on one contour. *)
Definition size_of (largest_contour : Contour) : Q :=
  let '(x, y, w, h) := boundingRect largest_contour in
  py_round (inject_Z w * CONVERSION_FACTOR) 2.

Definition outcome (found : Exn + option (list Contour)) : option Q :=
  match found with
  | inr (Some (c :: cs)) => Some (size_of (max_from contourArea c cs))
  | _ => None
  end.

(** The records one call adds to the log. *)
Definition records (path : string) (found : Exn + option (list Contour))
  : list (LogLevel * LogMsg) :=
  match found with
  | inr None => [(ERROR, MsgLoadFailed path)]
  | inl e => [(INFO, MsgLoaded path); (ERROR, MsgSizeError e)]
  | inr (Some []) => [(INFO, MsgLoaded path); (WARNING, MsgNoContour)]
  | inr (Some (c :: cs)) =>
      let '(x, y, w, h) := boundingRect (max_from contourArea c cs) in
      [(INFO, MsgLoaded path); (INFO, MsgLargestFound);
       (INFO, MsgBoundingBox w h);
       (INFO, MsgSize (inject_Z w * CONVERSION_FACTOR)%Q)]
  end.

(** Lines 134-139: the answer of [upload_image] to what
    [calculate_foot_size] returned. *)
Definition respond (size : option Q) : Response :=
  match size with
  | Some size => mkResponse "Imagem processada com sucesso!" (Some size) 200
  | None => mkResponse "Não foi possível detectar o pé na imagem." None 400
  end.

End Reading.

(** Lines 110-111: the part of the data URL that is decoded. *)
Definition payload (image_data : string) : string :=
  if contains ","%char image_data
  then nth 1 (split ","%char image_data) EmptyString
  else image_data.

(** [upload_image] as a function of the request alone. *)
Definition response_of `{cv : CV2} `{py : PyLib}
    (data : option (gmap string string)) : Response :=
  match data ≫= (fun d => d !! "image") with
  | None => mkResponse "Nenhuma imagem fornecida." None 400
  | Some image_data =>
      if negb (allowed_file_type image_data) then
        mkResponse "Tipo de imagem não permitido. Apenas PNG ou JPG são aceitos."
                   None 400
      else
        match b64decode (payload image_data) with
        | inl e => mkResponse "Erro no processamento da imagem." None 500
        | inr image_bytes => respond (outcome (contours_of (Some image_bytes)))
        end
  end.

(** ** The OpenCV stages

    The stage functions stand for the calls [calculate_foot_size] makes, on
    8-bit images, with the arguments it passes. *)

(** *** Grids *)

Definition height {A} (img : list (list A)) : Z := Z.of_nat (length img).

Definition width {A} (img : list (list A)) : Z :=
  match img with
  | [] => 0
  | row :: _ => Z.of_nat (length row)
  end.

(** A [numpy] array of shape [(h, w)]: [h] rows of [w] entries each. *)
Definition has_shape {A} (h w : Z) (img : list (list A)) : Prop :=
  height img = h /\ Forall (fun row => Z.of_nat (length row) = w) img.

Definition tabulate {A} (w h : Z) (f : Z -> Z -> A) : list (list A) :=
  map (fun y => map (fun x => f x y) (seqZ 0 w)) (seqZ 0 h).

(** The entry in column [x] of row [y]; [d] outside the array. *)
Definition at_ {A} (d : A) (img : list (list A)) (x y : Z) : A :=
  if (0 <=? x) && (0 <=? y)
  then nth (Z.to_nat x) (nth (Z.to_nat y) img []) d
  else d.

(** Border handling: the index an out-of-range coordinate [p] is read from
    on an axis of length [len], by reflection about the outermost pixel
    ([dcb|abcd|cba]) and by repetition of it ([aaa|abcd|ddd]). *)
Definition border_reflect_101 (len p : Z) : Z :=
  if len <=? 1 then 0
  else
    let m := 2 * (len - 1) in
    let q := p mod m in
    if q <? len then q else m - q.

Definition border_replicate (len p : Z) : Z := Z.max 0 (Z.min (len - 1) p).

(** *** cvtColor(img, COLOR_BGR2GRAY) *)

(** The fixed-point luminance weights 0.114, 0.587 and 0.299 of blue,
    green and red. *)
Definition bgr2gray (px : Pixel) : Z :=
  let '(b, g, r) := px in
  Z.shiftr (b * 1868 + g * 9617 + r * 4899 + 8192) 14.

(** Modelled from the spec: [cv2.cvtColor], an OpenCV routine with no
    source in the repository.  Every pixel is replaced by its luminance; an
    empty array is refused. *)
Definition cvtColor_BGR2GRAY (img : BGR) : Exn + Gray :=
  if (height img =? 0) || (width img =? 0)
  then inl (CvError "(-215:Assertion failed) !_src.empty() in function 'cvtColor'")
  else inr (map (map bgr2gray) img).

(** *** GaussianBlur(gray, (5, 5), 0) *)

(** All pixels of [img] hold the value [v]. *)
Definition uniform (v : Z) (img : Gray) : Prop := Forall (Forall (eq v)) img.

(** The kernel of size 5 for [sigma = 0], as offsets and weights:
    [1 4 6 4 1] / 16. *)
Definition gaussian_kernel5 : list (Z * Z) :=
  [(-2, 1); (-1, 4); (0, 6); (1, 4); (2, 1)].

Definition weight (kernel : list (Z * Z)) : Z :=
  fold_right Z.add 0 (map snd kernel).

(** One output pixel: the kernel is applied along the row and along the
    column with reflected borders, and the fixed-point sum is rounded to
    the nearest integer. *)
Definition blur_at (kernel : list (Z * Z)) (img : Gray) (x y : Z) : Z :=
  let w := width img in
  let h := height img in
  let total :=
    fold_right Z.add 0
      (map (fun '(j, kj) =>
              kj * fold_right Z.add 0
                     (map (fun '(i, ki) =>
                             ki * at_ 0 img (border_reflect_101 w (x + i))
                                            (border_reflect_101 h (y + j)))
                          kernel))
           kernel) in
  let norm := weight kernel in
  (2 * total + norm * norm) / (2 * norm * norm).

(** Modelled from the spec: [cv2.GaussianBlur], an OpenCV routine with no
    source in the repository.  A separable blur with a square kernel of odd
    size; the result has the size of the input. *)
Definition separable_blur (kernel : list (Z * Z)) (gray : Gray) : Gray :=
  tabulate (width gray) (height gray) (blur_at kernel gray).

Definition GaussianBlur_5x5 (gray : Gray) : Gray :=
  separable_blur gaussian_kernel5 gray.

(** *** Canny(blurred, 50, 150)

    Modelled from the spec: [cv2.Canny], an OpenCV routine with no source
    in the repository: intensity gradients, non-maximum suppression along
    the gradient direction, hysteresis with two thresholds over
    8-neighbour adjacency. *)

Definition inside (w h : Z) (p : Point) : bool :=
  (0 <=? fst p) && (fst p <? w) && (0 <=? snd p) && (snd p <? h).

(** 3x3 Sobel derivatives, borders replicated. *)
Definition sobel_x (img : Gray) (x y : Z) : Z :=
  let p i j := at_ 0 img (border_replicate (width img) (x + i))
                         (border_replicate (height img) (y + j)) in
  (p 1 (-1) + 2 * p 1 0 + p 1 1) - (p (-1) (-1) + 2 * p (-1) 0 + p (-1) 1).

Definition sobel_y (img : Gray) (x y : Z) : Z :=
  let p i j := at_ 0 img (border_replicate (width img) (x + i))
                         (border_replicate (height img) (y + j)) in
  (p (-1) 1 + 2 * p 0 1 + p 1 1) - (p (-1) (-1) + 2 * p 0 (-1) + p 1 (-1)).

(** Gradient magnitude, L1 norm; zero outside the image. *)
Definition magnitude (img : Gray) (x y : Z) : Z :=
  if inside (width img) (height img) (x, y)
  then Z.abs (sobel_x img x y) + Z.abs (sobel_y img x y)
  else 0.

Definition TG22 : Z := 13573.

(** Non-maximum suppression: is the magnitude at [(x, y)] a maximum along
    the gradient direction (horizontal, vertical or one of the diagonals)? *)
Definition local_max (img : Gray) (x y : Z) : bool :=
  let m := magnitude img x y in
  let dx := sobel_x img x y in
  let dy := sobel_y img x y in
  let ax := Z.abs dx in
  let ay := Z.shiftl (Z.abs dy) 15 in
  let tg22x := ax * TG22 in
  if ay <? tg22x then
    (magnitude img (x - 1) y <? m) && (magnitude img (x + 1) y <=? m)
  else
    let tg67x := tg22x + Z.shiftl ax 16 in
    if tg67x <? ay then
      (magnitude img x (y - 1) <? m) && (magnitude img x (y + 1) <=? m)
    else
      let s := if Z.lxor dx dy <? 0 then -1 else 1 in
      (magnitude img (x - s) (y - 1) <? m) && (magnitude img (x + s) (y + 1) <? m).

(** The gradient magnitude after non-maximum suppression. *)
Definition thinned (img : Gray) (p : Point) : Z :=
  if local_max img (fst p) (snd p) then magnitude img (fst p) (snd p) else 0.

Definition pixels (w h : Z) : list Point :=
  y ← seqZ 0 h; x ← seqZ 0 w; [(x, y)].

Definition neighbours (p : Point) : list Point :=
  let '(x, y) := p in
  [(x - 1, y - 1); (x, y - 1); (x + 1, y - 1);
   (x - 1, y);                 (x + 1, y);
   (x - 1, y + 1); (x, y + 1); (x + 1, y + 1)].

(** Hysteresis: one round adds the candidates that touch an edge pixel;
    the rounds are repeated until nothing can be added. *)
Definition grow (cands edges : gset Point) : gset Point :=
  edges ∪ filter (fun p => Exists (fun q => q ∈ edges) (neighbours p)) cands.

Definition rounds (strong cands : gset Point) (k : nat) : gset Point :=
  Nat.iter k (grow cands) strong.

Definition hysteresis (strong cands : gset Point) : gset Point :=
  rounds strong cands (size cands).

(** The pixels joined to a strong pixel through touching candidates. *)
Inductive joined (strong cands : gset Point) : Point -> Prop :=
| joined_strong p : p ∈ strong -> joined strong cands p
| joined_weak p q :
    p ∈ cands -> In q (neighbours p) -> joined strong cands q ->
    joined strong cands p.

(** Candidates survive the suppression above [low]; strong pixels are the
    candidates above [high]. *)
Definition candidates (img : Gray) (low : Z) : gset Point :=
  list_to_set (List.filter (fun p => low <? thinned img p)
                           (pixels (width img) (height img))).

Definition strong_pixels (img : Gray) (low high : Z) : gset Point :=
  filter (fun p => high < thinned img p) (candidates img low).

Definition canny_edges (img : Gray) (low high : Z) : gset Point :=
  hysteresis (strong_pixels img low high) (candidates img low).

(** Modelled from the spec: [cv2.Canny].  The edge map has the size of the
    image, 255 on the edge pixels and 0 elsewhere; the smaller threshold is
    the low one. *)
Definition Canny_model (img : Gray) (threshold1 threshold2 : Z) : Gray :=
  let low := Z.min threshold1 threshold2 in
  let high := Z.max threshold1 threshold2 in
  let edges := canny_edges img low high in
  tabulate (width img) (height img)
           (fun x y => if bool_decide ((x, y) ∈ edges) then 255 else 0).

(** *** findContours(edged, RETR_EXTERNAL, CHAIN_APPROX_SIMPLE)

    Modelled from the spec: [cv2.findContours], an OpenCV routine with no
    source in the repository: connected edge pixels (8-neighbour adjacency)
    are traced into ordered boundary paths, outer boundaries only, with
    the points between two turns left out.

    Border following in raster order.  Non-zero pixels count as 1; a traced
    pixel is relabelled [2], or [-126] where the border leaves it to the
    right.  The eight directions are numbered counterclockwise from east. *)

Definition direction (s : Z) : Point :=
  nth (Z.to_nat (s mod 8))
      [(1, 0); (1, -1); (0, -1); (-1, -1); (-1, 0); (-1, 1); (0, 1); (1, 1)]
      (0, 0).

Definition move (p : Point) (s : Z) : Point :=
  (fst p + fst (direction s), snd p + snd (direction s)).

Definition label (edged : Gray) (marks : gmap Point Z) (p : Point) : Z :=
  match marks !! p with
  | Some v => v
  | None => if at_ 0 edged (fst p) (snd p) =? 0 then 0 else 1
  end.

Definition traced (v : Z) : bool := negb ((v =? 0) || (v =? 1)).

(** The border-following loop from pixel [i3], entered from direction [s];
    [i0] is the start pixel and [i1] its first neighbour on the border.
    A point is written where the direction changes. *)
Fixpoint follow (fuel : nat) (edged : Gray) (i0 i1 : Point)
    (marks : gmap Point Z) (i3 : Point) (s prev_s : Z) (acc : Contour)
  : gmap Point Z * Contour :=
  match fuel with
  | O => (marks, acc)
  | S fuel' =>
      match List.find (fun k => negb (label edged marks (move i3 (s + k)) =? 0))
                      (seqZ 1 8) with
      | None => (marks, acc)
      | Some k =>
          let s' := (s + k) mod 8 in
          let i4 := move i3 s' in
          let marks' :=
            if (1 <=? s') && (s' <=? s) then <[i3 := -126]> marks
            else if label edged marks i3 =? 1 then <[i3 := 2]> marks
            else marks in
          let acc' := if s' =? prev_s then acc else acc ++ [i3] in
          if bool_decide (i4 = i0) && bool_decide (i3 = i1) then (marks', acc')
          else follow fuel' edged i0 i1 marks' i4 ((s' + 4) mod 8) s' acc'
      end
  end.

Definition fetch_contour (edged : Gray) (marks : gmap Point Z) (i0 : Point)
  : gmap Point Z * Contour :=
  match List.find (fun s => negb (label edged marks (move i0 s) =? 0))
                  [3; 2; 1; 0; 7; 6; 5] with
  | None => (<[i0 := -126]> marks, [i0])
  | Some s =>
      follow (Z.to_nat (8 * width edged * height edged)) edged i0 (move i0 s)
             marks i0 s (Z.lxor s 4) []
  end.

Record Scan : Type := mkScan {
  marks : gmap Point Z;
  prev : Z;
  lnbd : Point;
  found : list Contour
}.

Definition resume (st : Scan) (p : Z) (pt : Point) : Scan :=
  mkScan (marks st) p (if traced p then pt else lnbd st) (found st).

(** One step of the raster scan.  In external mode a border is traced only
    from an untraced pixel with background on its left, and only when the
    last traced pixel met on the row was left to the right. *)
Definition scan_pixel (edged : Gray) (st : Scan) (pt : Point) : Scan :=
  let st :=
    if fst pt =? 0 then mkScan (marks st) 0 (-1, snd pt) (found st) else st in
  let p := label edged (marks st) pt in
  if p =? prev st then st
  else if (prev st =? 0) && (p =? 1) then
    if 0 <? label edged (marks st) (lnbd st) then resume st p pt
    else
      let '(marks', contour) := fetch_contour edged (marks st) pt in
      mkScan marks' (label edged marks' pt) pt (contour :: found st)
  else if negb (p =? 0) || (prev st <? 1) then resume st p pt
  else
    let st' :=
      if traced (prev st)
      then mkScan (marks st) (prev st) (fst pt - 1, snd pt) (found st)
      else st in
    resume st' p pt.

(** Modelled from the spec: [cv2.findContours] in external mode.  The
    contours are listed last found first. *)
Definition findContours_external (edged : Gray) : list Contour :=
  found (fold_left (scan_pixel edged)
                   (pixels (width edged) (height edged))
                   (mkScan ∅ 0 (-1, 0) [])).

(** What the scan keeps true: marks and contour points are pixels of the
    edge map. *)
Definition within (edged : Gray) (p : Point) : Prop :=
  0 <= fst p < width edged /\ 0 <= snd p < height edged.

Definition marks_within (edged : Gray) (marks : gmap Point Z) : Prop :=
  forall p v, marks !! p = Some v -> within edged p.

Definition scan_within (edged : Gray) (st : Scan) : Prop :=
  marks_within edged (marks st) /\ Forall (Forall (within edged)) (found st).

(** ** A runnable instance of the libraries *)

(** [imread] picks the decoder from the file signature; binary PPM ([P6],
    one of the formats it reads) is the one spelled out here, every other
    content is unreadable. *)
Definition is_space (b : Z) : bool := (b =? 32) || ((9 <=? b) && (b <=? 13)).
Definition is_digit (b : Z) : bool := (48 <=? b) && (b <=? 57).

Fixpoint skip_spaces (bs : Bytes) : Bytes :=
  match bs with
  | b :: r => if is_space b then skip_spaces r else bs
  | [] => []
  end.

Fixpoint read_digits (acc : Z) (bs : Bytes) : Z * Bytes :=
  match bs with
  | b :: r => if is_digit b then read_digits (10 * acc + (b - 48)) r else (acc, bs)
  | [] => (acc, [])
  end.

Fixpoint read_pixels (n : nat) (bs : Bytes) : option (list Pixel) :=
  match n with
  | O => Some []
  | S n' =>
      match bs with
      | r :: g :: b :: rest => cons (b, g, r) <$> read_pixels n' rest
      | _ => None
      end
  end.

Fixpoint rows_of {A} (w h : nat) (l : list A) : list (list A) :=
  match h with
  | O => []
  | S h' => take w l :: rows_of w h' (drop w l)
  end.

Definition ppm_decode (bs : Bytes) : option BGR :=
  match bs with
  | 80 :: 54 :: rest =>
      let '(w, rest) := read_digits 0 (skip_spaces rest) in
      let '(h, rest) := read_digits 0 (skip_spaces rest) in
      let '(maxval, rest) := read_digits 0 (skip_spaces rest) in
      match rest with
      | sp :: data =>
          if is_space sp && (0 <? w) && (0 <? h) && (maxval =? 255)
          then px ← read_pixels (Z.to_nat (w * h)) data;
               Some (rows_of (Z.to_nat w) (Z.to_nat h) px)
          else None
      | [] => None
      end
  | _ => None
  end.

#[global] Instance opencv : CV2 := {|
  imdecode := ppm_decode;
  cvtColor := cvtColor_BGR2GRAY;
  GaussianBlur := fun gray => inr (GaussianBlur_5x5 gray);
  Canny := fun blurred => inr (Canny_model blurred 50 150);
  findContours := fun edged => inr (findContours_external edged)
|}.

(** [base64.b64decode] without validation: characters outside the alphabet
    are skipped, decoding stops at complete padding, and a quantum left
    open raises. *)
Definition b64_value (c : ascii) : option Z :=
  let n := Z.of_N (N_of_ascii c) in
  if (65 <=? n) && (n <=? 90) then Some (n - 65)
  else if (97 <=? n) && (n <=? 122) then Some (n - 71)
  else if (48 <=? n) && (n <=? 57) then Some (n + 4)
  else if n =? 43 then Some 62
  else if n =? 47 then Some 63
  else None.

Definition b64_flush (quad : list Z) : Bytes :=
  match quad with
  | [a; b] => [a * 4 + b / 16]
  | [a; b; c] => [a * 4 + b / 16; (b mod 16) * 16 + c / 4]
  | [a; b; c; d] => [a * 4 + b / 16; (b mod 16) * 16 + c / 4; (c mod 4) * 64 + d]
  | _ => []
  end.

Fixpoint b64_loop (s : string) (quad : list Z) (pads : nat) : Exn + Bytes :=
  match s with
  | EmptyString =>
      match quad with
      | [] => inr []
      | _ => inl (BinasciiError "Incorrect padding")
      end
  | String c r =>
      if Ascii.eqb c "="%char then
        if (2 <=? length quad)%nat then
          if (4 - length quad <=? S pads)%nat then inr (b64_flush quad)
          else b64_loop r quad (S pads)
        else b64_loop r quad pads
      else
        match b64_value c with
        | None => b64_loop r quad pads
        | Some v =>
            let quad := quad ++ [v] in
            if (length quad =? 4)%nat then
              match b64_loop r [] 0 with
              | inl e => inl e
              | inr rest => inr (b64_flush quad ++ rest)
              end
            else b64_loop r quad 0
        end
  end.

Definition hex_digit (d : Z) : ascii :=
  nth (Z.to_nat d) (String.list_ascii_of_string "0123456789abcdef") "0"%char.

Fixpoint hex_string (digits : nat) (n : Z) : string :=
  match digits with
  | O => EmptyString
  | S k => (hex_string k (n / 16) ++ String (hex_digit (n mod 16)) EmptyString)%string
  end.

(** The [n]-th uuid drawn is only required to be 32 hexadecimal digits. *)
#[global] Instance python : PyLib := {|
  b64decode := fun s => b64_loop s [] 0;
  uuid4_hex := fun n => hex_string 32 (Z.of_nat n)
|}.

(** The same library on a host that runs out of memory in [Canny]. *)
Definition opencv_out_of_memory : CV2 := {|
  imdecode := ppm_decode;
  cvtColor := cvtColor_BGR2GRAY;
  GaussianBlur := fun gray => inr (GaussianBlur_5x5 gray);
  Canny := fun _ => inl (CvError "Failed to allocate memory in function 'OutOfMemoryError'");
  findContours := fun edged => inr (findContours_external edged)
|}.

(** ** Files used in the examples *)

(** An 8x8 binary PPM: a white 4x4 square on black. *)
Definition square_ppm : Bytes :=
  let black := repeat 0 24 in
  let band := repeat 0 6 ++ repeat 255 12 ++ repeat 0 6 in
  [80; 54; 10; 56; 32; 56; 10; 50; 53; 53; 10]
    ++ black ++ black ++ band ++ band ++ band ++ band ++ black ++ black.

(** A 1x1 binary PPM: one black pixel. *)
Definition black_ppm : Bytes :=
  [80; 54; 10; 49; 32; 49; 10; 50; 53; 53; 10; 0; 0; 0].

(** Five bytes that are no image. *)
Definition junk_bytes : Bytes := [104; 101; 108; 108; 111].

(** ** Reading [upload_image] as a function of the request and the state *)

(** Lines 118-119: the file an upload is saved to when [drawn] uuids were
    drawn before it. *)
Definition upload_path `{py : PyLib} (drawn : nat) : string :=
  path_join UPLOAD_FOLDER ("captured_image_" ++ uuid4_hex drawn ++ ".png")%string.

(** Lines 134-139: the record that closes an upload. *)
Definition closing (size : option Q) : LogLevel * LogMsg :=
  match size with
  | Some size => (INFO, MsgSizeOk size)
  | None => (WARNING, MsgNotDetected)
  end.

(** The state [upload_image] leaves behind. *)
Definition world_of `{cv : CV2} `{py : PyLib}
    (data : option (gmap string string)) (w : World) : World :=
  match data ≫= (fun d => d !! "image") with
  | None => mkWorld (fs w) (log w ++ [(WARNING, MsgNoImageData)]) (uuids w)
  | Some image_data =>
      if negb (allowed_file_type image_data) then
        mkWorld (fs w) (log w ++ [(ERROR, MsgBadType)]) (uuids w)
      else
        match b64decode (payload image_data) with
        | inl e => mkWorld (fs w) (log w ++ [(ERROR, MsgRequestError e)]) (uuids w)
        | inr image_bytes =>
            let file_path := upload_path (uuids w) in
            let found := contours_of (Some image_bytes) in
            mkWorld (<[file_path := image_bytes]> (fs w))
                    (log w ++ [(INFO, MsgDecoded); (INFO, MsgSaved file_path)]
                           ++ records file_path found ++ [closing (outcome found)])
                    (S (uuids w))
        end
  end.

(** A point and a contour moved by [(dx, dy)]. *)
Definition move_by (dx dy : Z) (p : Point) : Point := (fst p + dx, snd p + dy).

Definition shift (dx dy : Z) (c : Contour) : Contour := map (move_by dx dy) c.

(** A 3x1 binary PPM, one white pixel and two black ones, and the request
    that uploads it. *)
Definition strip_ppm : Bytes :=
  [80; 54; 10; 51; 32; 49; 10; 50; 53; 53; 10; 255; 255; 255; 0; 0; 0; 0; 0; 0].

Definition strip_request : gmap string string :=
  {["image" := "data:image/png;base64,UDYKMyAxCjI1NQr///8AAAAAAAA="]}.

(** The request that uploads the five bytes of [junk_bytes]. *)
Definition junk_request : gmap string string :=
  {["image" := "data:image/png;base64,aGVsbG8="]}.

(** ** The request body

    What [request.get_json()] hands to [upload_image] when it returns: a
    parsed JSON value, with Python's types ([None], [bool], [int] or
    [float], [str], [list], [dict]).  [JNonFinite] stands for [NaN] and the
    infinities, which [json.loads] accepts. *)
#[warnings="-register-all"]
Inductive Json : Type :=
| JNull
| JBool (b : bool)
| JNumber (n : Q)
| JNonFinite
| JString (s : string)
| JArray (items : list Json)
| JObject (fields : gmap string Json).

(** The exceptions lines 99-106 can raise before a library is called: the
    [HTTPException] of [get_json] for a body that is no JSON, and those of
    the interpreter.  Their messages are not modelled. *)
Inductive RequestExn : Type :=
| HTTPException (code : Z)
| TypeError
| AttributeError
| KeyError.

(** The truth value of a JSON value; line 100 tests [not data]. *)
Definition truthy (data : Json) : bool :=
  match data with
  | JNull => false
  | JBool b => b
  | JNumber n => negb (Qnum n =? 0)
  | JNonFinite => true
  | JString s => negb (String.eqb s "")
  | JArray items => negb (Nat.eqb (length items) 0)
  | JObject fields => negb (Nat.eqb (size fields) 0)
  end.

(** [sub in s] on strings. *)
Fixpoint occurs (sub s : string) : bool :=
  String.prefix sub s ||
  match s with
  | EmptyString => false
  | String _ r => occurs sub r
  end.

(** ['image' in data], line 100: a key of a [dict], an element of a [list],
    a part of a [str]; the other types are no containers. *)
Definition image_in (data : Json) : RequestExn + bool :=
  match data with
  | JObject fields => inr (bool_decide (is_Some (fields !! "image")))
  | JArray items =>
      inr (existsb (fun item => match item with
                                | JString s => String.eqb s "image"
                                | _ => false
                                end) items)
  | JString s => inr (occurs "image" s)
  | _ => inl TypeError
  end.

(** [data['image']], line 105: only a [dict] is indexed by a string. *)
Definition getitem_image (data : Json) : RequestExn + Json :=
  match data with
  | JObject fields =>
      match fields !! "image" with
      | Some image_data => inr image_data
      | None => inl KeyError
      end
  | _ => inl TypeError
  end.

(** [image_data.startswith], line 42: a method of [str] alone. *)
Definition startswith_receiver (image_data : Json) : RequestExn + string :=
  match image_data with
  | JString s => inr s
  | _ => inl AttributeError
  end.

(** Lines 99-106 up to the first [startswith]: the string the function
    goes on with, [None] when the test of line 100 sends it to the answer
    that no image was given, or the exception raised on the way. *)
Definition image_of (got : RequestExn + Json) : RequestExn + option string :=
  match got with
  | inl e => inl e
  | inr data =>
      if negb (truthy data) then inr None
      else
        match image_in data with
        | inl e => inl e
        | inr false => inr None
        | inr true =>
            match getitem_image data with
            | inl e => inl e
            | inr image_data =>
                match startswith_receiver image_data with
                | inl e => inl e
                | inr s => inr (Some s)
                end
            end
        end
  end.

(** The answer of [upload_image] to a request, from what
    [request.get_json()] did: [got] is the exception it raised or the value
    it returned.  An exception of lines 99-106 is raised inside the [try]
    and reaches the handler of lines 141-143 like those of the libraries;
    from the string on the function goes on as [upload_image] does on the
    object that holds it.  Only the answer is given here: [LogMsg] has no
    record for the handler's log line on these exceptions. *)
Definition upload_image_answer `{cv : CV2} `{py : PyLib}
    (got : RequestExn + Json) (w : World) : Exn + Response :=
  match image_of got with
  | inl e => inr (mkResponse "Erro no processamento da imagem." None 500)
  | inr None => fst (upload_image None w)
  | inr (Some image_data) => fst (upload_image (Some {["image" := image_data]}) w)
  end.

(** ** The OpenCV stages behind any decoder

    The stages as modelled above, with [decode] for what [cv2.imread] makes
    of the bytes of a file. *)
Definition opencv_with (decode : Bytes -> option BGR) : CV2 := {|
  imdecode := decode;
  cvtColor := cvtColor_BGR2GRAY;
  GaussianBlur := fun gray => inr (GaussianBlur_5x5 gray);
  Canny := fun blurred => inr (Canny_model blurred 50 150);
  findContours := fun edged => inr (findContours_external edged)
|}.

(** A 3x2 binary PPM whose six pixels all have the grey value 90. *)
Definition grey_ppm : Bytes :=
  [80; 54; 10; 51; 32; 50; 10; 50; 53; 53; 10] ++ repeat 90 18.
(** * Properties *)

Section ReadingFacts.
Context `{cv : CV2}.

Lemma calculate_foot_size_run path w :
  let r := calculate_foot_size path w in
  let found := contours_of (fs w !! path) in
  fst r = inr (outcome found) /\
  fs (snd r) = fs w /\ uuids (snd r) = uuids w /\
  log (snd r) = log w ++ records path found.
Proof.
  unfold calculate_foot_size, try_except, calculate_foot_size_body, imread,
    read_file, contours_of.
  unfold mbind, mret, Py_bind, Py_ret, lift, logging; cbn.
  destruct (fs w !! path) as [bytes|]; cbn;
    [destruct (imdecode bytes) as [img|]; cbn|].
  2,3: repeat split; reflexivity.
  destruct (cvtColor img) as [e|gray]; cbn.
  { repeat split. rewrite <- app_assoc. reflexivity. }
  destruct (GaussianBlur gray) as [e|blurred]; cbn.
  { repeat split. rewrite <- app_assoc. reflexivity. }
  destruct (Canny blurred) as [e|edged]; cbn.
  { repeat split. rewrite <- app_assoc. reflexivity. }
  destruct (findContours edged) as [e|[|c cs]]; cbn.
  { repeat split. rewrite <- app_assoc. reflexivity. }
  { repeat split. rewrite <- app_assoc. reflexivity. }
  unfold size_of.
  destruct (boundingRect (max_from contourArea c cs)) as [[[x y] wd] h]; cbn.
  repeat split. rewrite <- !app_assoc. reflexivity.
Qed.

End ReadingFacts.

(** ** Facts on the built-ins and on the contour geometry *)

Section MaxFacts.
Context {A : Type} (key : A -> Q).

(** [max_from] cuts the sequence at its result: strictly smaller keys
    before it, no larger key after it. *)
Lemma max_from_split (l : list A) : forall best,
  exists pre post,
    best :: l = pre ++ max_from key best l :: post /\
    Forall (fun x => (key x < key (max_from key best l))%Q) pre /\
    Forall (fun x => (key x <= key (max_from key best l))%Q) post.
Proof.
  induction l as [|x r IH]; intros best; cbn.
  - exists nil, nil. repeat split; constructor.
  - destruct (Qle_bool (key x) (key best)) eqn:E.
    + apply Qle_bool_iff in E.
      destruct (IH best) as (pre & post & Heq & Hpre & Hpost).
      destruct pre as [|b pre']; cbn in Heq; injection Heq as Hb Hr.
      * exists nil, (x :: r). split; [cbn; congruence|].
        split; [constructor|]. constructor; [rewrite <- Hb; exact E|].
        rewrite <- Hr in Hpost. exact Hpost.
      * subst b. exists (best :: x :: pre'), post.
        split; [cbn; congruence|]. split; [|exact Hpost].
        inversion Hpre as [|? ? Hbest Hpre']; subst.
        constructor; [exact Hbest|]. constructor; [|exact Hpre'].
        eapply Qle_lt_trans; eassumption.
    + assert (Hlt : (key best < key x)%Q).
      { apply Qnot_le_lt. intros H. apply Qle_bool_iff in H. congruence. }
      destruct (IH x) as (pre & post & Heq & Hpre & Hpost).
      exists (best :: pre), post.
      split; [cbn; congruence|]. split; [|exact Hpost].
      constructor; [|exact Hpre].
      destruct pre as [|b pre']; cbn in Heq; injection Heq as Hb Hr.
      * rewrite <- Hb. exact Hlt.
      * subst b. inversion Hpre; subst. eapply Qlt_trans; eassumption.
Qed.

Lemma max_from_In (l : list A) best : In (max_from key best l) (best :: l).
Proof.
  destruct (max_from_split l best) as (pre & post & Heq & _).
  rewrite Heq. apply in_or_app. right. left. reflexivity.
Qed.

End MaxFacts.

Section RectFacts.

Lemma extend_covers box p q : covers box q -> covers (extend box p) q.
Proof. destruct box as [[[a b] c] d]. unfold covers, extend. lia. Qed.

(** The fold keeps a box that covers, and is touched by, the points seen. *)
Lemma fold_extend_spec (r : Contour) : forall (seen : Contour) box,
  Forall (covers box) seen -> touched box seen ->
  Forall (covers (fold_left extend r box)) (seen ++ r) /\
  touched (fold_left extend r box) (seen ++ r).
Proof.
  induction r as [|p r IH]; intros seen box Hc Ht; cbn.
  - rewrite app_nil_r. split; assumption.
  - replace (seen ++ p :: r) with ((seen ++ [p]) ++ r)
      by (rewrite <- app_assoc; reflexivity).
    apply IH.
    + apply Forall_app. split.
      * eapply List.Forall_impl; [|exact Hc]. intros q. apply extend_covers.
      * constructor; [|constructor].
        destruct box as [[[a b] c] d]. unfold covers, extend.
        destruct Ht as ((q1 & _ & H1) & (q2 & _ & H2) & (q3 & _ & H3) & (q4 & _ & H4)).
        assert (Hq := Hc).
        rewrite List.Forall_forall in Hq.
        unfold touched in *. lia.
    + destruct box as [[[a b] c] d]. unfold touched, extend in *.
      destruct Ht as ((q1 & I1 & H1) & (q2 & I2 & H2) & (q3 & I3 & H3) & (q4 & I4 & H4)).
      assert (Hp : In p (seen ++ [p])) by (apply in_or_app; right; left; reflexivity).
      assert (Hs : forall q, In q seen -> In q (seen ++ [p]))
        by (intros q Hq; apply in_or_app; left; exact Hq).
      repeat split.
      * destruct (Z.min_spec a (fst p)) as [[_ ->]|[_ ->]]; eauto.
      * destruct (Z.min_spec b (snd p)) as [[_ ->]|[_ ->]]; eauto.
      * destruct (Z.max_spec c (fst p)) as [[_ ->]|[_ ->]]; eauto.
      * destruct (Z.max_spec d (snd p)) as [[_ ->]|[_ ->]]; eauto.
Qed.

(** [boundingRect] of a non-empty contour: the least rectangle of pixel
    columns [x .. x+w-1] and rows [y .. y+h-1] holding every point. *)
Lemma boundingRect_spec (c : Contour) x y w h :
  c <> [] -> boundingRect c = (x, y, w, h) ->
  Forall (fun p => x <= fst p < x + w /\ y <= snd p < y + h) c /\
  (exists p, In p c /\ fst p = x) /\ (exists p, In p c /\ snd p = y) /\
  (exists p, In p c /\ fst p = x + w - 1) /\
  (exists p, In p c /\ snd p = y + h - 1).
Proof.
  destruct c as [|p r]; [congruence|]. intros _. unfold boundingRect.
  destruct (fold_extend_spec r [p] (fst p, snd p, fst p, snd p)) as [Hc Ht].
  { constructor; [|constructor]. unfold covers. lia. }
  { unfold touched. repeat split; exists p; (split; [left|]; reflexivity). }
  cbn [app] in Hc, Ht.
  destruct (fold_left extend r (fst p, snd p, fst p, snd p)) as [[[a b] c'] d].
  intros [= <- <- <- <-]. unfold covers, touched in *.
  split.
  - eapply List.Forall_impl; [|exact Hc]. cbn. intros q. lia.
  - destruct Ht as (H1 & H2 & (q3 & I3 & H3) & (q4 & I4 & H4)).
    repeat split; [exact H1|exact H2|exists q3|exists q4]; split; auto; lia.
Qed.

Lemma boundingRect_width_nonneg (c : Contour) :
  0 <= snd (fst (boundingRect c)).
Proof.
  destruct c as [|p r]; [cbn; lia|].
  destruct (boundingRect (p :: r)) as [[[x y] w] h] eqn:E.
  destruct (boundingRect_spec (p :: r) x y w h) as (Hall & _); [congruence|exact E|].
  inversion Hall; subst. cbn. lia.
Qed.

End RectFacts.

Lemma round_half_even_near (y : Q) :
  (inject_Z (round_half_even y) - (1 # 2) <= y <= inject_Z (round_half_even y) + (1 # 2))%Q.
Proof.
  unfold round_half_even.
  pose proof (Qfloor_le y) as Hlo. pose proof (Qlt_floor y) as Hhi.
  rewrite inject_Z_plus in Hhi. change (inject_Z 1) with 1%Q in Hhi.
  destruct (Qcompare_spec (y - inject_Z (Qfloor y)) (1 # 2)) as [H|H|H].
  - destruct (Z.even (Qfloor y)); rewrite ?inject_Z_plus;
      change (inject_Z 1) with 1%Q; lra.
  - lra.
  - rewrite inject_Z_plus. change (inject_Z 1) with 1%Q. lra.
Qed.

Lemma py_round_conv (w : Z) :
  py_round (inject_Z w * CONVERSION_FACTOR) 2 = Qmake (20 * w) 100.
Proof.
  unfold py_round, CONVERSION_FACTOR, round_half_even. cbn [Z.of_nat Z.pow Z.to_pos].
  change (Z.to_pos (10 ^ Z.of_nat 2)) with 100%positive.
  f_equal.
  assert (Hf : Qfloor (inject_Z w * (2 # 10) * inject_Z 100) = 20 * w).
  { unfold Qfloor, Qmult, inject_Z. cbn [Qnum Qden Pos.mul].
    change (Z.pos (1 * 10 * 1)) with 10.
    replace (w * 2 * 100) with ((20 * w) * 10) by lia. apply Z.div_mul. lia. }
  rewrite Hf.
  assert (Hc : Qcompare (inject_Z w * (2 # 10) * inject_Z 100 - inject_Z (20 * w)) (1 # 2) = Lt).
  { rewrite <- Qlt_alt. rewrite inject_Z_mult.
    change (inject_Z 100) with (100#1)%Q. change (inject_Z 20) with (20#1)%Q. lra. }
  rewrite Hc. reflexivity.
Qed.

(** ** Grids and borders *)

Lemma length_tabulate {A} (w h : Z) (f : Z -> Z -> A) :
  length (tabulate w h f) = Z.to_nat h.
Proof. unfold tabulate. rewrite length_map. apply length_seqZ. Qed.

Lemma tabulate_rows {A} (w h : Z) (f : Z -> Z -> A) :
  Forall (fun row => length row = Z.to_nat w) (tabulate w h f).
Proof.
  unfold tabulate. apply List.Forall_forall. intros row Hrow.
  apply in_map_iff in Hrow as (y & <- & _).
  rewrite length_map. apply length_seqZ.
Qed.

Lemma tabulate_shape {A} (w h : Z) (f : Z -> Z -> A) :
  0 <= w -> 0 <= h -> has_shape h w (tabulate w h f).
Proof.
  intros Hw Hh. split.
  - unfold height. rewrite length_tabulate. lia.
  - eapply List.Forall_impl; [|apply tabulate_rows].
    cbn. intros row ->. lia.
Qed.

Lemma nth_seqZ (n i : nat) d :
  (i < n)%nat -> nth i (seqZ 0 (Z.of_nat n)) d = Z.of_nat i.
Proof.
  intros Hi. apply nth_lookup_Some with (d := d).
  apply lookup_seqZ. lia.
Qed.

Lemma at_tabulate {A} (d : A) (w h : Z) (f : Z -> Z -> A) (x y : Z) :
  0 <= x < w -> 0 <= y < h -> at_ d (tabulate w h f) x y = f x y.
Proof.
  intros Hx Hy. unfold at_, tabulate.
  replace ((0 <=? x) && (0 <=? y)) with true
    by (symmetry; apply andb_true_iff; split; apply Z.leb_le; lia).
  rewrite (nth_indep _ _ (map (fun x => f x y) (seqZ 0 w)))
    by (rewrite length_map, length_seqZ; lia).
  rewrite (map_nth (fun y => map (fun x => f x y) (seqZ 0 w)) _ y).
  replace h with (Z.of_nat (Z.to_nat h)) by lia.
  rewrite nth_seqZ by lia. rewrite Z2Nat.id by lia.
  rewrite (nth_indep _ _ (f x y)) by (rewrite length_map, length_seqZ; lia).
  rewrite (map_nth (fun x => f x y) _ x).
  replace w with (Z.of_nat (Z.to_nat w)) by lia.
  rewrite nth_seqZ by lia. rewrite Z2Nat.id by lia. reflexivity.
Qed.

Lemma at_outside {A} (d : A) (img : list (list A)) (h w x y : Z) :
  has_shape h w img -> ~ (0 <= x < w /\ 0 <= y < h) -> at_ d img x y = d.
Proof.
  intros [Hh Hrows] Hout. unfold at_.
  destruct (0 <=? x) eqn:Ex; [|reflexivity].
  destruct (0 <=? y) eqn:Ey; [|reflexivity]. cbn.
  apply Z.leb_le in Ex, Ey. unfold height in Hh.
  destruct (decide (y < h)) as [Hy|Hy].
  - assert (Hx : w <= x) by lia.
    assert (Hin : In (nth (Z.to_nat y) img []) img) by (apply nth_In; lia).
    rewrite List.Forall_forall in Hrows. specialize (Hrows _ Hin).
    apply nth_overflow. lia.
  - rewrite (nth_overflow img) by lia. destruct (Z.to_nat x); reflexivity.
Qed.

Lemma border_reflect_101_range (len p : Z) :
  0 < len -> 0 <= border_reflect_101 len p < len.
Proof.
  intros Hlen. unfold border_reflect_101.
  destruct (len <=? 1) eqn:E1; [lia|]. apply Z.leb_gt in E1.
  pose proof (Z.mod_pos_bound p (2 * (len - 1)) ltac:(lia)) as Hq.
  destruct (p mod (2 * (len - 1)) <? len) eqn:E2.
  - apply Z.ltb_lt in E2. lia.
  - apply Z.ltb_ge in E2. lia.
Qed.

Lemma border_reflect_101_inside (len p : Z) :
  0 <= p < len -> border_reflect_101 len p = p.
Proof.
  intros Hp. unfold border_reflect_101.
  destruct (len <=? 1) eqn:E1.
  - apply Z.leb_le in E1. lia.
  - apply Z.leb_gt in E1. rewrite Z.mod_small by lia.
    replace (p <? len) with true by (symmetry; apply Z.ltb_lt; lia).
    reflexivity.
Qed.

Lemma border_replicate_range (len p : Z) :
  0 < len -> 0 <= border_replicate len p < len.
Proof. unfold border_replicate. lia. Qed.

(** ** Gaussian blur *)

Lemma at_uniform (v : Z) (img : Gray) (h w x y : Z) :
  has_shape h w img -> uniform v img ->
  0 <= x < w -> 0 <= y < h -> at_ 0 img x y = v.
Proof.
  intros [Hh Hrows] Hu Hx Hy. unfold at_, height in *.
  replace ((0 <=? x) && (0 <=? y)) with true
    by (symmetry; apply andb_true_iff; split; apply Z.leb_le; lia).
  assert (Hin : In (nth (Z.to_nat y) img []) img) by (apply nth_In; lia).
  unfold uniform in Hu. rewrite List.Forall_forall in Hu, Hrows.
  specialize (Hu _ Hin). specialize (Hrows _ Hin).
  rewrite List.Forall_forall in Hu. symmetry. apply Hu. apply nth_In. lia.
Qed.

Lemma weighted_sum_const (kernel : list (Z * Z)) (f : Z -> Z) (c : Z) :
  (forall i, In i (map fst kernel) -> f i = c) ->
  fold_right Z.add 0 (map (fun '(i, ki) => ki * f i) kernel)
  = fold_right Z.add 0 (map snd kernel) * c.
Proof.
  induction kernel as [|[i ki] kernel IH]; intros Hf; cbn; [reflexivity|].
  rewrite IH by (intros j Hj; apply Hf; right; exact Hj).
  rewrite (Hf i) by (left; reflexivity). lia.
Qed.

Lemma map_const {A B} (c : B) (l : list A) :
  map (fun _ => c) l = repeat c (length l).
Proof. induction l as [|a l IH]; cbn; [reflexivity|]. f_equal. exact IH. Qed.

Lemma tabulate_uniform (v : Z) (img : Gray) (h w : Z) :
  has_shape h w img -> uniform v img ->
  tabulate w h (fun _ _ => v) = img.
Proof.
  intros [Hh Hrows] Hu. unfold tabulate, height in *. subst h.
  assert (Hrow : forall row, Z.of_nat (length row) = w -> Forall (eq v) row ->
                             map (fun _ : Z => v) (seqZ 0 w) = row).
  { intros row <- Hv. clear - Hv.
    apply list_eq. intros i. rewrite list_lookup_fmap.
    destruct (row !! i) as [a|] eqn:Ea.
    - assert (Hlt := lookup_lt_Some _ _ _ Ea).
      rewrite (proj2 (lookup_seqZ 0 _ i (Z.of_nat i))) by lia. cbn.
      rewrite List.Forall_forall in Hv. f_equal. apply Hv.
      eapply list_elem_of_In, list_elem_of_lookup_2. exact Ea.
    - assert (Hge := lookup_ge_None_1 _ _ Ea).
      rewrite lookup_seqZ_ge by lia. reflexivity. }
  induction img as [|row img IH].
  - reflexivity.
  - inversion Hrows; subst. inversion Hu; subst.
    replace (Z.of_nat (length (row :: img))) with (Z.succ (Z.of_nat (length img)))
      by (cbn [length]; lia).
    rewrite (seqZ_cons 0 (Z.succ (Z.of_nat (length img)))) by lia.
    cbn [map]. f_equal.
    + apply Hrow; auto.
    + replace (Z.pred (Z.succ (Z.of_nat (length img)))) with (Z.of_nat (length img)) by lia.
      rewrite <- (IH ltac:(assumption) ltac:(assumption)) at 2.
      rewrite !map_const, !length_seqZ. reflexivity.
Qed.

Lemma blur_at_uniform (kernel : list (Z * Z)) (v : Z) (img : Gray) (h w x y : Z) :
  0 < weight kernel ->
  has_shape h w img -> uniform v img -> 0 < w -> 0 < h ->
  blur_at kernel img x y = v.
Proof.
  intros Hn Hs Hu Hw Hh. unfold blur_at.
  assert (Hwd : width img = w).
  { destruct Hs as [Hl Hrows]. unfold height in Hl.
    destruct img as [|row img]; [cbn in Hl; lia|].
    inversion Hrows; subst. reflexivity. }
  assert (Hht : height img = h) by apply Hs.
  rewrite Hwd, Hht.
  unfold weight in *.
  set (n := fold_right Z.add 0 (map snd kernel)) in *.
  rewrite (weighted_sum_const kernel _ (n * v)).
  - fold n. replace (2 * (n * (n * v)) + n * n) with (n * n + v * (2 * n * n)) by lia.
    rewrite Z.div_add by nia. rewrite Z.div_small by nia. lia.
  - intros j _. rewrite (weighted_sum_const kernel _ v); [reflexivity|].
    intros i _. eapply at_uniform; eauto using border_reflect_101_range.
Qed.

(** ** Hysteresis *)

Section Hysteresis.
Context (strong cands : gset Point).
Hypothesis strong_cands : strong ⊆ cands.

#[local] Abbreviation joined := (joined strong cands).
#[local] Abbreviation rounds := (rounds strong cands).

Lemma elem_of_grow (edges : gset Point) (p : Point) :
  p ∈ grow cands edges <->
  p ∈ edges \/ (p ∈ cands /\ exists q, In q (neighbours p) /\ q ∈ edges).
Proof.
  unfold grow. rewrite elem_of_union, elem_of_filter, List.Exists_exists.
  tauto.
Qed.

Lemma grow_incl (edges : gset Point) : edges ⊆ grow cands edges.
Proof. intros p Hp. apply elem_of_grow. left. exact Hp. Qed.

Lemma grow_within (edges : gset Point) :
  edges ⊆ cands -> grow cands edges ⊆ cands.
Proof.
  intros He p Hp. apply elem_of_grow in Hp as [Hp|[Hp _]]; [apply He|]; exact Hp.
Qed.

Lemma rounds_within (k : nat) : rounds k ⊆ cands.
Proof.
  induction k as [|k IH]; [exact strong_cands|].
  apply grow_within. exact IH.
Qed.

Lemma rounds_mono (j k : nat) : (j <= k)%nat -> rounds j ⊆ rounds k.
Proof.
  induction 1 as [|k _ IH]; [reflexivity|].
  etransitivity; [exact IH|]. apply grow_incl.
Qed.

Lemma rounds_joined (k : nat) (p : Point) : p ∈ rounds k -> joined p.
Proof.
  revert p. induction k as [|k IH]; intros p Hp.
  - apply joined_strong. exact Hp.
  - apply elem_of_grow in Hp as [Hp|(Hc & q & Hq & Hqe)].
    + apply IH. exact Hp.
    + eapply joined_weak; eauto.
Qed.

Lemma rounds_stable (j : nat) :
  grow cands (rounds j) = rounds j -> forall k, (j <= k)%nat -> rounds k = rounds j.
Proof.
  intros Hfix k. induction 1 as [|k _ IH]; [reflexivity|].
  change (rounds (S k)) with (grow cands (rounds k)). rewrite IH. exact Hfix.
Qed.

(** Each round either adds a pixel or leaves the set closed for good. *)
Lemma rounds_progress (k : nat) :
  (exists j, (j <= k)%nat /\ grow cands (rounds j) = rounds j) \/
  (k <= size (rounds k))%nat.
Proof.
  induction k as [|k [(j & Hj & Hfix)|Hsize]].
  - right. lia.
  - left. exists j. split; [lia|exact Hfix].
  - destruct (decide (grow cands (rounds k) = rounds k)) as [Hfix|Hne].
    + left. exists k. split; [lia|exact Hfix].
    + right. change (rounds (S k)) with (grow cands (rounds k)).
      assert (Hsub : rounds k ⊂ grow cands (rounds k)).
      { split; [apply grow_incl|]. intros Hback. apply Hne.
        apply set_eq. intros p. split; [apply Hback|apply grow_incl]. }
      apply subset_size in Hsub. lia.
Qed.

Lemma hysteresis_closed : grow cands (hysteresis strong cands) = hysteresis strong cands.
Proof.
  change (hysteresis strong cands) with (rounds (size cands)).
  destruct (rounds_progress (size cands)) as [(j & Hj & Hfix)|Hsize].
  - rewrite (rounds_stable j Hfix _ Hj). exact Hfix.
  - assert (Hall : rounds (size cands) ≡ cands).
    { apply set_subseteq_size_equiv; [apply rounds_within|exact Hsize]. }
    apply set_eq. intros p. split; [|apply grow_incl].
    intros Hp. apply Hall. eapply grow_within; [apply rounds_within|exact Hp].
Qed.

Lemma hysteresis_joined (p : Point) : p ∈ hysteresis strong cands <-> joined p.
Proof.
  split; [apply rounds_joined|].
  induction 1 as [p Hp|p q Hc Hq _ IH].
  - apply (rounds_mono 0); [lia|exact Hp].
  - rewrite <- hysteresis_closed. apply elem_of_grow. right. eauto.
Qed.

End Hysteresis.

(** ** The Canny edge set *)

Lemma elem_of_pixels (w h : Z) (p : Point) :
  p ∈ pixels w h <-> 0 <= fst p < w /\ 0 <= snd p < h.
Proof.
  unfold pixels. rewrite list_elem_of_bind. split.
  - intros (y & Hp & Hy). apply list_elem_of_bind in Hp as (x & Hp & Hx).
    apply list_elem_of_singleton in Hp. subst p. cbn.
    apply elem_of_seqZ in Hx, Hy. lia.
  - intros [Hx Hy]. exists (snd p). split; [|apply elem_of_seqZ; lia].
    apply list_elem_of_bind. exists (fst p). split; [|apply elem_of_seqZ; lia].
    apply list_elem_of_singleton. destruct p; reflexivity.
Qed.

Lemma inside_spec (w h : Z) (p : Point) :
  inside w h p = true <-> 0 <= fst p < w /\ 0 <= snd p < h.
Proof.
  unfold inside. rewrite !andb_true_iff, !Z.leb_le, !Z.ltb_lt. lia.
Qed.

Lemma magnitude_nonneg (img : Gray) (x y : Z) : 0 <= magnitude img x y.
Proof. unfold magnitude. destruct (inside _ _ _); lia. Qed.

Lemma thinned_nonneg (img : Gray) (p : Point) : 0 <= thinned img p.
Proof.
  unfold thinned. destruct (local_max _ _ _); [apply magnitude_nonneg|lia].
Qed.

(** Suppressed pixels and pixels outside the image have no magnitude left. *)
Lemma thinned_outside (img : Gray) (p : Point) :
  inside (width img) (height img) p = false -> thinned img p = 0.
Proof.
  intros Hout. unfold thinned, magnitude.
  destruct p as [x y]. cbn [fst snd]. rewrite Hout.
  destruct (local_max _ _ _); reflexivity.
Qed.

Section CannyEdges.
Context (img : Gray) (low high : Z).
Hypothesis low_high : low <= high.

#[local] Abbreviation candidates := (candidates img low).
#[local] Abbreviation strong_pixels := (strong_pixels img low high).

Lemma elem_of_candidates (p : Point) :
  p ∈ candidates <->
  (0 <= fst p < width img /\ 0 <= snd p < height img) /\ low < thinned img p.
Proof.
  unfold candidates. rewrite elem_of_list_to_set, list_elem_of_In, filter_In.
  rewrite <- list_elem_of_In, elem_of_pixels, Z.ltb_lt. tauto.
Qed.

Lemma elem_of_strong_pixels (p : Point) :
  p ∈ strong_pixels <->
  (0 <= fst p < width img /\ 0 <= snd p < height img) /\ high < thinned img p.
Proof.
  unfold strong_pixels. rewrite elem_of_filter, elem_of_candidates. lia.
Qed.

Lemma strong_candidates : strong_pixels ⊆ candidates.
Proof. intros p Hp. apply elem_of_filter in Hp. tauto. Qed.

Lemma canny_edges_unfold :
  canny_edges img low high = hysteresis strong_pixels candidates.
Proof. reflexivity. Qed.

Lemma canny_edges_candidates (p : Point) :
  p ∈ canny_edges img low high -> p ∈ candidates.
Proof.
  rewrite canny_edges_unfold. apply (rounds_within _ _ strong_candidates).
Qed.

Lemma canny_edges_step (p : Point) :
  p ∈ canny_edges img low high <->
  p ∈ strong_pixels \/
  (p ∈ candidates /\ exists q, In q (neighbours p) /\ q ∈ canny_edges img low high).
Proof.
  rewrite canny_edges_unfold. split.
  - intros Hp. apply (hysteresis_joined _ _ strong_candidates) in Hp.
    destruct Hp as [p Hp|p q Hc Hq Hj]; [left; exact Hp|].
    right. split; [exact Hc|]. exists q. split; [exact Hq|].
    apply (hysteresis_joined _ _ strong_candidates). exact Hj.
  - intros [Hp|(Hc & q & Hq & Hqe)].
    + apply (hysteresis_joined _ _ strong_candidates). apply joined_strong. exact Hp.
    + rewrite <- (hysteresis_closed _ _ strong_candidates).
      apply elem_of_grow. right. eauto.
Qed.

End CannyEdges.

Lemma at_Canny_model (img : Gray) (t1 t2 x y : Z) :
  at_ 0 (Canny_model img t1 t2) x y = 255 <->
  (x, y) ∈ canny_edges img (Z.min t1 t2) (Z.max t1 t2).
Proof.
  unfold Canny_model.
  destruct (decide (0 <= x < width img /\ 0 <= y < height img)) as [Hin|Hout].
  - rewrite at_tabulate by tauto.
    destruct (bool_decide_reflect ((x, y) ∈ canny_edges img (Z.min t1 t2) (Z.max t1 t2)));
      split; auto; try discriminate; tauto.
  - rewrite (at_outside 0 _ (height img) (width img)).
    + split; [discriminate|]. intros Hp.
      apply canny_edges_candidates, elem_of_candidates in Hp. cbn in Hp. tauto.
    + apply tabulate_shape.
      * unfold width. destruct img; lia.
      * unfold height. lia.
    + exact Hout.
Qed.

Lemma at_Canny_model_values (img : Gray) (t1 t2 x y : Z) :
  at_ 0 (Canny_model img t1 t2) x y = 255 \/ at_ 0 (Canny_model img t1 t2) x y = 0.
Proof.
  unfold Canny_model.
  destruct (decide (0 <= x < width img /\ 0 <= y < height img)) as [Hin|Hout].
  - rewrite at_tabulate by tauto. destruct (bool_decide _); auto.
  - right. apply (at_outside 0 _ (height img) (width img)); [|exact Hout].
    apply tabulate_shape; [unfold width; destruct img; lia|unfold height; lia].
Qed.

(** ** Border following *)

Section Tracing.
Context (edged : Gray).

#[local] Abbreviation within := (within edged).
#[local] Abbreviation marks_within := (marks_within edged).
#[local] Abbreviation scan_within := (scan_within edged).

Hypothesis edged_shape : has_shape (height edged) (width edged) edged.

Lemma label_within (marks : gmap Point Z) (p : Point) :
  marks_within marks -> label edged marks p <> 0 -> within p.
Proof.
  intros Hm Hl. unfold label in Hl.
  destruct (marks !! p) as [v|] eqn:E; [eapply Hm; exact E|].
  destruct (decide (within p)) as [Hin|Hout]; [exact Hin|].
  rewrite (at_outside 0 edged _ _ _ _ edged_shape Hout) in Hl.
  cbn in Hl. congruence.
Qed.

Lemma marks_within_insert (marks : gmap Point Z) (p : Point) (v : Z) :
  marks_within marks -> within p -> marks_within (<[p := v]> marks).
Proof.
  intros Hm Hp q u Hq. destruct (decide (p = q)) as [->|Hne]; [exact Hp|].
  rewrite lookup_insert_ne in Hq by exact Hne. eapply Hm; exact Hq.
Qed.

Lemma find_nonzero (marks : gmap Point Z) (i : Point) (f : Z -> Z) (l : list Z) (k : Z) :
  List.find (fun k => negb (label edged marks (move i (f k)) =? 0)) l = Some k ->
  label edged marks (move i (f k)) <> 0.
Proof.
  intros Hf. apply find_some in Hf as [_ Hf].
  apply negb_true_iff, Z.eqb_neq in Hf. exact Hf.
Qed.

Lemma follow_within (fuel : nat) : forall i0 i1 marks i3 s prev_s acc,
  marks_within marks -> within i3 -> Forall within acc ->
  marks_within (fst (follow fuel edged i0 i1 marks i3 s prev_s acc)) /\
  Forall within (snd (follow fuel edged i0 i1 marks i3 s prev_s acc)).
Proof.
  induction fuel as [|fuel IH]; intros i0 i1 marks i3 s prev_s acc Hm Hi Hacc;
    cbn [follow]; [split; assumption|].
  destruct (List.find _ (seqZ 1 8)) as [k|] eqn:Hk; [|split; assumption].
  apply (find_nonzero marks i3 (fun k => s + k)) in Hk.
  set (s' := (s + k) mod 8) in *.
  assert (Hnext : within (move i3 s')).
  { apply (label_within marks); [exact Hm|].
    unfold move, direction in *. subst s'.
    rewrite Z.mod_mod by lia. exact Hk. }
  set (marks' := if (1 <=? s') && (s' <=? s) then <[i3 := -126]> marks
                 else if label edged marks i3 =? 1 then <[i3 := 2]> marks
                 else marks).
  assert (Hm' : marks_within marks').
  { subst marks'. destruct ((1 <=? s') && (s' <=? s)).
    - apply marks_within_insert; assumption.
    - destruct (label edged marks i3 =? 1); [apply marks_within_insert|]; assumption. }
  set (acc' := if s' =? prev_s then acc else acc ++ [i3]).
  assert (Hacc' : Forall within acc').
  { subst acc'. destruct (s' =? prev_s); [exact Hacc|].
    apply Forall_app. split; [exact Hacc|]. constructor; [exact Hi|constructor]. }
  destruct (bool_decide (move i3 s' = i0) && bool_decide (i3 = i1)).
  - split; assumption.
  - apply IH; assumption.
Qed.

Lemma fetch_contour_within (marks : gmap Point Z) (i0 : Point) :
  marks_within marks -> within i0 ->
  marks_within (fst (fetch_contour edged marks i0)) /\
  Forall within (snd (fetch_contour edged marks i0)).
Proof.
  intros Hm Hi. unfold fetch_contour.
  destruct (List.find _ _) as [s|].
  - apply follow_within; [exact Hm|exact Hi|constructor].
  - cbn. split; [apply marks_within_insert; assumption|].
    constructor; [exact Hi|constructor].
Qed.

Lemma scan_pixel_within (st : Scan) (pt : Point) :
  scan_within st -> within pt -> scan_within (scan_pixel edged st pt).
Proof.
  intros [Hm Hf] Hpt. unfold scan_pixel.
  set (st0 := if fst pt =? 0 then _ else st).
  assert (H0 : scan_within st0).
  { subst st0. destruct (fst pt =? 0); split; assumption. }
  clearbody st0. clear Hm Hf st. destruct H0 as [Hm Hf].
  destruct (label edged (marks st0) pt =? prev st0); [split; assumption|].
  destruct ((prev st0 =? 0) && (label edged (marks st0) pt =? 1)).
  - destruct (0 <? label edged (marks st0) (lnbd st0)); [split; assumption|].
    destruct (fetch_contour_within (marks st0) pt Hm Hpt) as [Hm' Hc].
    destruct (fetch_contour edged (marks st0) pt) as [marks' contour].
    split; cbn in *; [exact Hm'|]. constructor; assumption.
  - destruct (negb _ || _); [split; assumption|].
    destruct (traced (prev st0)); split; assumption.
Qed.

(** Every point of every contour found is a pixel of the edge map. *)
Lemma findContours_external_within :
  Forall (Forall within) (findContours_external edged).
Proof.
  unfold findContours_external.
  assert (Hpts : Forall within (pixels (width edged) (height edged))).
  { apply List.Forall_forall. intros p Hp.
    apply list_elem_of_In, elem_of_pixels in Hp. exact Hp. }
  assert (Hst : scan_within (mkScan ∅ 0 (-1, 0) [])).
  { split; [|constructor]. intros p v Hp. cbn in Hp. rewrite lookup_empty in Hp. discriminate. }
  revert Hst. generalize (mkScan ∅ 0 (-1, 0) []).
  induction Hpts as [|pt pts Hpt _ IH]; intros st Hst; cbn [fold_left].
  - apply Hst.
  - apply IH. apply scan_pixel_within; assumption.
Qed.

End Tracing.

(** With no edge pixel the scan never starts a border. *)
Lemma at_uniform_zero (img : Gray) (x y : Z) : uniform 0 img -> at_ 0 img x y = 0.
Proof.
  intros Hu. unfold at_. destruct ((0 <=? x) && (0 <=? y)); [|reflexivity].
  destruct (nth_in_or_default (Z.to_nat y) img []) as [Hin| ->].
  - unfold uniform in Hu. rewrite List.Forall_forall in Hu. specialize (Hu _ Hin).
    destruct (nth_in_or_default (Z.to_nat x) (nth (Z.to_nat y) img []) 0) as [Hx| ->];
      [|reflexivity].
    rewrite List.Forall_forall in Hu. symmetry. apply Hu. exact Hx.
  - destruct (Z.to_nat x); reflexivity.
Qed.

Lemma findContours_external_blank (edged : Gray) :
  uniform 0 edged -> findContours_external edged = [].
Proof.
  intros Hu. unfold findContours_external.
  assert (Hinv : forall pts st,
             marks st = ∅ -> found st = [] ->
             found (fold_left (scan_pixel edged) pts st) = []).
  { induction pts as [|pt pts IH]; intros st Hm Hf; cbn [fold_left]; [exact Hf|].
    assert (Hstep : marks (scan_pixel edged st pt) = ∅ /\
                    found (scan_pixel edged st pt) = []).
    { unfold scan_pixel.
      set (st0 := if fst pt =? 0 then _ else st).
      assert (H0 : marks st0 = ∅ /\ found st0 = [])
        by (subst st0; destruct (fst pt =? 0); split; assumption).
      clearbody st0. destruct H0 as [Hm0 Hf0].
      assert (Hl : forall q, label edged (marks st0) q = 0).
      { intros q. unfold label. rewrite Hm0, lookup_empty, at_uniform_zero by exact Hu.
        reflexivity. }
      rewrite !Hl.
      destruct (0 =? prev st0); [split; assumption|].
      rewrite andb_false_r. cbn.
      destruct (prev st0 <? 1); [split; assumption|].
      destruct (traced (prev st0)); split; assumption. }
    apply IH; apply Hstep. }
  apply Hinv; reflexivity.
Qed.

(** ** Width and height of the bounding rectangle are computed apart *)

Lemma fold_extend_columns (r r' : Contour) : forall a b c d b' d',
  map fst r = map fst r' ->
  fst (fst (fst (fold_left extend r (a, b, c, d)))) =
  fst (fst (fst (fold_left extend r' (a, b', c, d')))) /\
  snd (fst (fold_left extend r (a, b, c, d))) =
  snd (fst (fold_left extend r' (a, b', c, d'))).
Proof.
  revert r'. induction r as [|p r IH]; intros [|p' r'] a b c d b' d' Hx;
    try discriminate; cbn [fold_left].
  - split; reflexivity.
  - cbn in Hx. injection Hx as Hp Hr. cbn [extend]. rewrite Hp.
    apply IH. exact Hr.
Qed.

Lemma boundingRect_columns (c c' : Contour) :
  map fst c = map fst c' ->
  fst (fst (fst (boundingRect c))) = fst (fst (fst (boundingRect c'))) /\
  snd (fst (boundingRect c)) = snd (fst (boundingRect c')).
Proof.
  destruct c as [|p r], c' as [|p' r']; intros Hx; try discriminate;
    [split; reflexivity|].
  cbn in Hx. injection Hx as Hp Hr. unfold boundingRect. rewrite Hp.
  destruct (fold_extend_columns r r' (fst p') (snd p) (fst p') (snd p)
              (snd p') (snd p') Hr) as [Hmin Hmax].
  destruct (fold_left extend r _) as [[[a b] m] n].
  destruct (fold_left extend r' _) as [[[a' b'] m'] n'].
  cbn in *. subst. split; reflexivity.
Qed.

Lemma size_of_columns (c c' : Contour) :
  map fst c = map fst c' -> size_of c = size_of c'.
Proof.
  intros Hx. destruct (boundingRect_columns c c' Hx) as [_ Hw].
  unfold size_of.
  destruct (boundingRect c) as [[[x y] w] h].
  destruct (boundingRect c') as [[[x' y'] w'] h'].
  cbn in Hw. subst. reflexivity.
Qed.

Lemma size_of_hundredths (c : Contour) :
  exists n : Z, 0 <= n /\ size_of c = Qmake n 100.
Proof.
  unfold size_of. pose proof (boundingRect_width_nonneg c) as Hw.
  destruct (boundingRect c) as [[[x y] w] h]. cbn in Hw.
  exists (20 * w). split; [lia|]. apply py_round_conv.
Qed.

(** ** Reading [upload_image] as a function of the request *)

Section UploadFacts.
Context `{cv : CV2} `{py : PyLib}.

Lemma upload_image_run data w :
  fst (upload_image data w) = inr (response_of data).
Proof.
  unfold upload_image, try_except, upload_image_body, response_of.
  destruct (data ≫= _) as [image_data|]; [|reflexivity].
  destruct (negb (allowed_file_type image_data)); [reflexivity|].
  fold (payload image_data).
  unfold mbind, Py_bind, lift at 1.
  destruct (b64decode (payload image_data)) as [e|image_bytes]; [reflexivity|].
  cbn [logging fresh_uuid write_file path_exists fs log uuids].
  set (file_path := path_join UPLOAD_FOLDER _).
  rewrite bool_decide_eq_true_2 by (cbn; rewrite lookup_insert_eq; eauto).
  cbn [negb].
  match goal with
  | |- context [calculate_foot_size file_path ?w'] =>
      pose proof (calculate_foot_size_run file_path w') as (Hr & _);
      destruct (calculate_foot_size file_path w') as [r w'']
  end.
  cbn [fst fs] in Hr. rewrite lookup_insert_eq in Hr. subst r.
  destruct (outcome _); reflexivity.
Qed.

End UploadFacts.

(** ** Shapes along the pipeline *)

Lemma width_nonneg {A} (img : list (list A)) : 0 <= width img.
Proof. unfold width. destruct img; lia. Qed.

Lemma height_nonneg {A} (img : list (list A)) : 0 <= height img.
Proof. unfold height. lia. Qed.

Lemma has_shape_width {A} (h w : Z) (img : list (list A)) :
  has_shape h w img -> 0 < h -> width img = w.
Proof.
  intros [Hh Hrows] Hpos. unfold height in Hh.
  destruct img as [|row img]; [cbn in Hh; lia|].
  inversion Hrows; subst. reflexivity.
Qed.

Lemma has_shape_map {A B} (f : A -> B) (h w : Z) (img : list (list A)) :
  has_shape h w img -> has_shape h w (map (map f) img).
Proof.
  intros [Hh Hrows]. split.
  - unfold height in *. rewrite length_map. exact Hh.
  - apply List.Forall_forall. intros row Hrow.
    apply in_map_iff in Hrow as (row0 & <- & Hin).
    rewrite List.Forall_forall in Hrows. rewrite length_map. apply Hrows. exact Hin.
Qed.

Lemma has_shape_own {A} (h w : Z) (img : list (list A)) :
  has_shape h w img -> 0 < h -> has_shape (height img) (width img) img.
Proof.
  intros Hs Hh. rewrite (has_shape_width h w img Hs Hh).
  destruct Hs as [_ Hrows]. split; [reflexivity|exact Hrows].
Qed.

Lemma cvtColor_shape (img : BGR) (h w : Z) :
  has_shape h w img -> 0 < h -> 0 < w ->
  exists gray, cvtColor_BGR2GRAY img = inr gray /\ has_shape h w gray.
Proof.
  intros Hs Hh Hw. unfold cvtColor_BGR2GRAY.
  rewrite (has_shape_width h w img Hs Hh). destruct Hs as [Hht Hrows].
  rewrite Hht.
  replace ((h =? 0) || (w =? 0)) with false
    by (symmetry; apply orb_false_iff; split; apply Z.eqb_neq; lia).
  eexists. split; [reflexivity|]. apply has_shape_map. split; assumption.
Qed.

Lemma separable_blur_shape (kernel : list (Z * Z)) (gray : Gray) (h w : Z) :
  has_shape h w gray -> 0 < h -> has_shape h w (separable_blur kernel gray).
Proof.
  intros Hs Hh. unfold separable_blur.
  rewrite (has_shape_width h w gray Hs Hh).
  pose proof (width_nonneg gray) as Hw.
  rewrite (has_shape_width h w gray Hs Hh) in Hw.
  destruct Hs as [Hht _]. rewrite Hht. apply tabulate_shape; lia.
Qed.

Lemma Canny_model_shape (img : Gray) (t1 t2 h w : Z) :
  has_shape h w img -> 0 < h -> has_shape h w (Canny_model img t1 t2).
Proof.
  intros Hs Hh. unfold Canny_model.
  pose proof (width_nonneg img) as Hw.
  rewrite (has_shape_width h w img Hs Hh) in *.
  destruct Hs as [Hht _]. rewrite Hht. apply tabulate_shape; lia.
Qed.

Lemma tabulate_ext {A} (w h : Z) (f g : Z -> Z -> A) :
  (forall x y, 0 <= x < w -> 0 <= y < h -> f x y = g x y) ->
  tabulate w h f = tabulate w h g.
Proof.
  intros Hfg. unfold tabulate. apply map_ext_in. intros y Hy.
  apply map_ext_in. intros x Hx.
  apply list_elem_of_In, elem_of_seqZ in Hx, Hy. apply Hfg; lia.
Qed.

Lemma separable_blur_uniform (kernel : list (Z * Z)) (v : Z) (img : Gray) (h w : Z) :
  0 < weight kernel -> has_shape h w img -> uniform v img ->
  separable_blur kernel img = img.
Proof.
  intros Hk Hs Hu. unfold separable_blur.
  destruct (decide (0 < h)) as [Hh|Hh].
  - rewrite (has_shape_width h w img Hs Hh).
    replace (height img) with h by (symmetry; apply Hs).
    rewrite <- (tabulate_uniform v img h w Hs Hu) at 2.
    apply tabulate_ext. intros x y Hx Hy.
    apply (blur_at_uniform kernel v img h w); auto; lia.
  - destruct Hs as [Hht _]. unfold height in *.
    destruct img as [|row img]; [reflexivity|cbn in Hht; lia].
Qed.

(** A ring with a smaller ring in its hole: only the border of the outer
    ring is traced, with its four corners as points. *)
Example findContours_external_nested :
  findContours_external [[1; 1; 1; 1; 1; 1; 1];
                         [1; 0; 0; 0; 0; 0; 1];
                         [1; 0; 1; 1; 1; 0; 1];
                         [1; 0; 1; 0; 1; 0; 1];
                         [1; 0; 1; 1; 1; 0; 1];
                         [1; 0; 0; 0; 0; 0; 1];
                         [1; 1; 1; 1; 1; 1; 1]]
  = [[(0, 0); (0, 6); (6, 6); (6, 0)]].
Proof. vm_compute. reflexivity. Qed.

(** Two objects side by side: both borders are traced, the one found last
    listed first. *)
Example findContours_external_two :
  findContours_external [[0; 1; 0; 0; 1; 1];
                         [1; 1; 1; 0; 0; 0];
                         [0; 1; 0; 0; 0; 0]]
  = [[(4, 0); (5, 0)]; [(1, 0); (0, 1); (1, 2); (2, 1)]].
Proof. vm_compute. reflexivity. Qed.

(** * The claims *)

(** C1. Measurer.  Whenever [findContours] returned at least one contour,
    [calculate_foot_size] takes the bounding rectangle of the selected
    contour, whose sides are the least and greatest x and y coordinates of
    its points, and returns the rectangle's width times
    [CONVERSION_FACTOR], rounded to two decimal digits.  The height is
    computed and logged, and the returned value does not depend on it: a
    contour with the same x coordinates measures the same. *)
Theorem C1_measurer_reports_width `{cv : CV2} (path : string) (w : World)
    (c : Contour) (cs : list Contour) :
  contours_of (fs w !! path) = inr (Some (c :: cs)) ->
  let largest := max_from contourArea c cs in
  exists x y wd h,
    boundingRect largest = (x, y, wd, h) /\
    (largest <> [] ->
     Forall (fun p => x <= fst p < x + wd /\ y <= snd p < y + h) largest /\
     (exists p, In p largest /\ fst p = x) /\
     (exists p, In p largest /\ snd p = y) /\
     (exists p, In p largest /\ fst p = x + wd - 1) /\
     (exists p, In p largest /\ snd p = y + h - 1)) /\
    fst (calculate_foot_size path w)
      = inr (Some (py_round (inject_Z wd * CONVERSION_FACTOR) 2)) /\
    In (INFO, MsgBoundingBox wd h) (log (snd (calculate_foot_size path w))) /\
    (forall c' : Contour,
        map fst c' = map fst largest -> size_of c' = size_of largest).
Proof.
  intros Hfound largest.
  destruct (boundingRect largest) as [[[x y] wd] h] eqn:Hbox.
  exists x, y, wd, h.
  destruct (calculate_foot_size_run path w) as (Hr & _ & _ & Hlog).
  rewrite Hfound in Hr, Hlog. cbn [outcome records] in Hr, Hlog.
  fold largest in Hr, Hlog. unfold size_of in Hr. rewrite Hbox in Hr, Hlog.
  split; [reflexivity|]. split.
  { intros Hne. apply boundingRect_spec; assumption. }
  split; [exact Hr|]. split.
  { rewrite Hlog. apply in_or_app. right. cbn. tauto. }
  intros c' Hx. apply size_of_columns. exact Hx.
Qed.

Lemma C1_measurer_reports_width_witness :
  let w := mkWorld {["foot.png" := square_ppm]} [] 0 in
  contours_of (fs w !! "foot.png")
    = inr (Some [[(2, 2); (2, 5); (5, 5); (5, 2)]]) /\
  boundingRect [(2, 2); (2, 5); (5, 5); (5, 2)] = (2, 2, 4, 4) /\
  fst (calculate_foot_size "foot.png" w) = inr (Some (Qmake 80 100)).
Proof.
  intros w.
  assert (Hfound : contours_of (fs w !! "foot.png")
                   = inr (Some [[(2, 2); (2, 5); (5, 5); (5, 2)]]))
    by (vm_compute; reflexivity).
  split; [exact Hfound|]. split; [vm_compute; reflexivity|].
  destruct (C1_measurer_reports_width "foot.png" w _ _ Hfound)
    as (x & y & wd & h & Hbox & _ & Hr & _).
  rewrite Hr. vm_compute in Hbox. injection Hbox as <- <- <- <-.
  vm_compute. reflexivity.
Defined.


(** C2. Candidate selector.  For a non-empty sequence of contours,
    [max(contours, key=cv2.contourArea)] returns an element of the sequence
    whose area (the polygon-area formula over its points in order) no other
    element exceeds, and it is the first such element: every contour before
    it has a strictly smaller area. *)
Theorem C2_selects_first_largest (contours : list Contour) :
  contours <> [] ->
  exists largest pre post,
    py_max contourArea contours = inr largest /\
    contours = pre ++ largest :: post /\
    Forall (fun c => (contourArea c < contourArea largest)%Q) pre /\
    Forall (fun c => (contourArea c <= contourArea largest)%Q) post /\
    In largest contours /\
    (forall c, In c contours -> (contourArea c <= contourArea largest)%Q).
Proof.
  destruct contours as [|c cs]; [congruence|]. intros _.
  destruct (max_from_split contourArea cs c) as (pre & post & Heq & Hpre & Hpost).
  exists (max_from contourArea c cs), pre, post.
  split; [reflexivity|]. split; [exact Heq|].
  split; [exact Hpre|]. split; [exact Hpost|].
  split; [apply max_from_In|].
  intros c' Hc'. rewrite Heq in Hc'.
  apply in_app_or in Hc' as [Hc'|[<-|Hc']].
  - apply Qlt_le_weak. rewrite List.Forall_forall in Hpre. apply Hpre. exact Hc'.
  - apply Qle_refl.
  - rewrite List.Forall_forall in Hpost. apply Hpost. exact Hc'.
Qed.

Lemma C2_selects_first_largest_witness :
  let small : Contour := [(0, 0); (0, 2); (2, 2); (2, 0)] in
  let first : Contour := [(0, 0); (0, 3); (3, 3); (3, 0)] in
  let second : Contour := [(5, 5); (5, 8); (8, 8); (8, 5)] in
  [small; first; second] <> [] /\
  exists largest pre post,
    py_max contourArea [small; first; second] = inr largest /\
    [small; first; second] = pre ++ largest :: post /\
    Forall (fun c => (contourArea c < contourArea largest)%Q) pre /\
    Forall (fun c => (contourArea c <= contourArea largest)%Q) post /\
    In largest [small; first; second] /\
    (forall c, In c [small; first; second] ->
               (contourArea c <= contourArea largest)%Q).
Proof.
  intros small first second.
  split; [discriminate|].
  apply (C2_selects_first_largest [small; first; second]). discriminate.
Defined.

(** Of two contours of the same largest area the earlier one is taken. *)
Example py_max_takes_first_of_equals :
  py_max contourArea [[(0, 0); (0, 2); (2, 2); (2, 0)];
                      [(0, 0); (0, 3); (3, 3); (3, 0)];
                      [(5, 5); (5, 8); (8, 8); (8, 5)]]
  = inr [(0, 0); (0, 3); (3, 3); (3, 0)].
Proof. vm_compute. reflexivity. Qed.


(** C8. Idempotence.  The value [calculate_foot_size] returns is determined
    by the bytes of the file it is pointed at: a second call on the state
    the first call left behind returns the same value, the first call
    changes nothing but the log, and any call on any state and path that
    holds the same bytes returns the same value.  The same holds for
    [upload_image] and the request it is given, although each call draws a
    new uuid and writes a new file. *)
Theorem C8_same_input_same_result `{cv : CV2} `{py : PyLib}
    (path : string) (w : World) :
  let first := calculate_foot_size path w in
  fst (calculate_foot_size path (snd first)) = fst first /\
  fs (snd first) = fs w /\ uuids (snd first) = uuids w /\
  (forall path' w', fs w' !! path' = fs w !! path ->
                    fst (calculate_foot_size path' w') = fst first) /\
  (forall data w',
      fst (upload_image data (snd (upload_image data w')))
      = fst (upload_image data w')).
Proof.
  intros first.
  destruct (calculate_foot_size_run path w) as (Hr & Hfs & Hu & _).
  fold first in Hr, Hfs, Hu.
  split.
  { destruct (calculate_foot_size_run path (snd first)) as (Hr' & _).
    rewrite Hr', Hr, Hfs. reflexivity. }
  split; [exact Hfs|]. split; [exact Hu|]. split.
  { intros path' w' Hsame.
    destruct (calculate_foot_size_run path' w') as (Hr' & _).
    rewrite Hr', Hr, Hsame. reflexivity. }
  intros data w'. rewrite !upload_image_run. reflexivity.
Qed.

Lemma C8_same_input_same_result_witness :
  let w := mkWorld {["foot.png" := square_ppm]} [] 0 in
  let w' := mkWorld {["copy.png" := square_ppm; "junk.png" := junk_bytes]}
                    [(WARNING, MsgNotDetected)] 7 in
  fs w' !! "copy.png" = fs w !! "foot.png" /\
  fst (calculate_foot_size "copy.png" w') = fst (calculate_foot_size "foot.png" w).
Proof.
  intros w w'.
  assert (Hsame : fs w' !! "copy.png" = fs w !! "foot.png")
    by (vm_compute; reflexivity).
  split; [exact Hsame|].
  destruct (C8_same_input_same_result "foot.png" w) as (_ & _ & _ & Hany & _).
  apply Hany. exact Hsame.
Defined.


(** C10. Totality.  For every path and state [calculate_foot_size] returns
    normally, and what it returns is either [None] or a non-negative number
    of hundredths; when the body of its [try] block raises, the exception
    is caught, logged, and the result is [None]. *)
Theorem C10_total_none_or_rounded `{cv : CV2} (path : string) (w : World) :
  exists r : option Q,
    fst (calculate_foot_size path w) = inr r /\
    (r = None \/ exists n : Z, 0 <= n /\ r = Some (Qmake n 100)) /\
    (forall e w', calculate_foot_size_body path w = (inl e, w') ->
                  calculate_foot_size path w
                  = (inr None, mkWorld (fs w') (log w' ++ [(ERROR, MsgSizeError e)])
                                       (uuids w'))).
Proof.
  destruct (calculate_foot_size_run path w) as (Hr & _).
  exists (outcome (contours_of (fs w !! path))).
  split; [exact Hr|]. split.
  - unfold outcome. destruct (contours_of _) as [e|[[|c cs]|]]; auto.
    right. destruct (size_of_hundredths (max_from contourArea c cs)) as (n & Hn & ->).
    exists n. split; [exact Hn|reflexivity].
  - intros e w' Hbody. unfold calculate_foot_size, try_except.
    rewrite Hbody. reflexivity.
Qed.

Lemma C10_total_none_or_rounded_witness :
  let w := mkWorld {["foot.png" := square_ppm]} [] 0 in
  let e := CvError "Failed to allocate memory in function 'OutOfMemoryError'" in
  let w' := mkWorld (fs w) [(INFO, MsgLoaded "foot.png")] 0 in
  @calculate_foot_size_body opencv_out_of_memory "foot.png" w = (inl e, w') /\
  @calculate_foot_size opencv_out_of_memory "foot.png" w
  = (inr None,
     mkWorld (fs w') (log w' ++ [(ERROR, MsgSizeError e)]) (uuids w')).
Proof.
  intros w e w'.
  assert (Hbody : @calculate_foot_size_body opencv_out_of_memory "foot.png" w
                  = (inl e, w')) by (vm_compute; reflexivity).
  split; [exact Hbody|].
  destruct (@C10_total_none_or_rounded opencv_out_of_memory "foot.png" w)
    as (r & _ & _ & Hcaught).
  apply Hcaught. exact Hbody.
Defined.






(** C4, as stated, fails: a file that cannot be decoded and a black 1x1
    image are answered alike, by [calculate_foot_size] and by
    [upload_image]. *)
Lemma C4_rejected_like_no_object :
  let junk : Bytes := [104; 101; 108; 108; 111] in
  let black : Bytes := [80; 54; 10; 49; 32; 49; 10; 50; 53; 53; 10; 0; 0; 0] in
  let w := mkWorld {["junk.png" := junk; "black.png" := black]} [] 0 in
  let upload (b64 : string) : option (gmap string string) :=
    Some {["image" := ("data:image/png;base64," ++ b64)%string]} in
  contours_of (Some junk) = inr None /\
  contours_of (Some black) = inr (Some []) /\
  fst (calculate_foot_size "junk.png" w) = fst (calculate_foot_size "black.png" w) /\
  b64decode "aGVsbG8=" = inr junk /\
  b64decode "UDYKMSAxCjI1NQoAAAA=" = inr black /\
  fst (upload_image (upload "aGVsbG8=") w)
    = fst (upload_image (upload "UDYKMSAxCjI1NQoAAAA=") w).
Proof. vm_compute. repeat split; reflexivity. Qed.

(** C4, amended.  A file that cannot be decoded and an image without
    contours are not told apart for the caller: [calculate_foot_size]
    returns [None] for both and [upload_image] answers both with the same
    400 response; the two cases differ only in the records written to the
    log, and both differ from the 200 response of a measurement. *)
Theorem C4_same_answer_different_log `{cv : CV2} `{py : PyLib}
    (junk blank : Bytes) :
  contours_of (Some junk) = inr None ->
  contours_of (Some blank) = inr (Some []) ->
  (forall p1 w1 p2 w2,
      fs w1 !! p1 = Some junk -> fs w2 !! p2 = Some blank ->
      fst (calculate_foot_size p1 w1) = inr None /\
      fst (calculate_foot_size p2 w2) = inr None /\
      log (snd (calculate_foot_size p1 w1)) = log w1 ++ [(ERROR, MsgLoadFailed p1)] /\
      log (snd (calculate_foot_size p2 w2))
        = log w2 ++ [(INFO, MsgLoaded p2); (WARNING, MsgNoContour)]) /\
  (forall d1 s1 w1 d2 s2 w2,
      d1 !! "image" = Some s1 -> allowed_file_type s1 = true ->
      b64decode (payload s1) = inr junk ->
      d2 !! "image" = Some s2 -> allowed_file_type s2 = true ->
      b64decode (payload s2) = inr blank ->
      fst (upload_image (Some d1) w1) = fst (upload_image (Some d2) w2) /\
      fst (upload_image (Some d1) w1)
        = inr (mkResponse "Não foi possível detectar o pé na imagem." None 400)) /\
  (forall size, respond None <> respond (Some size)).
Proof.
  intros Hjunk Hblank. split; [|split].
  - intros p1 w1 p2 w2 H1 H2.
    destruct (calculate_foot_size_run p1 w1) as (Hr1 & _ & _ & Hl1).
    destruct (calculate_foot_size_run p2 w2) as (Hr2 & _ & _ & Hl2).
    rewrite H1, Hjunk in Hr1, Hl1. rewrite H2, Hblank in Hr2, Hl2.
    repeat split; assumption.
  - intros d1 s1 w1 d2 s2 w2 Hd1 Ha1 Hb1 Hd2 Ha2 Hb2.
    rewrite !upload_image_run. unfold response_of. cbn [mbind option_bind].
    rewrite Hd1, Hd2, Ha1, Ha2. cbn [negb]. rewrite Hb1, Hb2, Hjunk, Hblank.
    split; reflexivity.
  - intros size. discriminate.
Qed.

Lemma C4_same_answer_different_log_witness :
  let w := mkWorld {["junk.png" := junk_bytes; "black.png" := black_ppm]} [] 0 in
  contours_of (Some junk_bytes) = inr None /\
  contours_of (Some black_ppm) = inr (Some []) /\
  fs w !! "junk.png" = Some junk_bytes /\
  fs w !! "black.png" = Some black_ppm /\
  fst (calculate_foot_size "junk.png" w) = inr None /\
  fst (calculate_foot_size "black.png" w) = inr None /\
  log (snd (calculate_foot_size "junk.png" w))
    = log w ++ [(ERROR, MsgLoadFailed "junk.png")] /\
  log (snd (calculate_foot_size "black.png" w))
    = log w ++ [(INFO, MsgLoaded "black.png"); (WARNING, MsgNoContour)].
Proof.
  intros w.
  assert (Hjunk : contours_of (Some junk_bytes) = inr None)
    by (vm_compute; reflexivity).
  assert (Hblack : contours_of (Some black_ppm) = inr (Some []))
    by (vm_compute; reflexivity).
  assert (H1 : fs w !! "junk.png" = Some junk_bytes) by (vm_compute; reflexivity).
  assert (H2 : fs w !! "black.png" = Some black_ppm) by (vm_compute; reflexivity).
  do 4 (split; [assumption|]).
  destruct (C4_same_answer_different_log junk_bytes black_ppm Hjunk Hblack)
    as (Hcalls & _).
  apply Hcalls; assumption.
Defined.


(** C9.  Modelled from the spec: [smooth] is [cv2.GaussianBlur], a library
    routine; it is taken as the separable blur with a normalised kernel of
    odd size and reflected borders, 5x5 with weights [1 4 6 4 1]/16 as
    called by [calculate_foot_size].  On a grid whose pixels all hold the
    same value the blur returns the grid itself, for the 5x5 kernel and for
    every kernel of positive total weight. *)
Theorem C9_blur_fixes_uniform_grid (v : Z) (img : Gray) (h w : Z) :
  has_shape h w img -> uniform v img ->
  GaussianBlur_5x5 img = img /\
  (forall kernel, 0 < weight kernel -> separable_blur kernel img = img).
Proof.
  intros Hs Hu. split.
  - apply (separable_blur_uniform gaussian_kernel5 v img h w); auto.
    unfold weight. cbn. lia.
  - intros kernel Hk. apply (separable_blur_uniform kernel v img h w); auto.
Qed.

Lemma C9_blur_fixes_uniform_grid_witness :
  let grey : Gray := [[7; 7; 7]; [7; 7; 7]] in
  has_shape 2 3 grey /\ uniform 7 grey /\ GaussianBlur_5x5 grey = grey.
Proof.
  intros grey.
  assert (Hs : has_shape 2 3 grey).
  { split; [reflexivity|]. repeat constructor. }
  assert (Hu : uniform 7 grey) by (repeat constructor).
  split; [exact Hs|]. split; [exact Hu|].
  exact (proj1 (C9_blur_fixes_uniform_grid 7 grey 2 3 Hs Hu)).
Defined.


(** C7.  Modelled from the spec: the stages are [cv2] routines.  For a
    decoded image of [h] rows and [w] columns, the grey image, the blurred
    image and the edge map all have [h] rows and [w] columns, and every
    point of every contour found lies in [[0, w) x [0, h)]. *)
Theorem C7_stages_keep_shape (img : BGR) (h w : Z) :
  has_shape h w img -> 0 < h -> 0 < w ->
  exists gray,
    cvtColor_BGR2GRAY img = inr gray /\
    let blurred := GaussianBlur_5x5 gray in
    let edged := Canny_model blurred 50 150 in
    has_shape h w gray /\ has_shape h w blurred /\ has_shape h w edged /\
    Forall (Forall (fun p => 0 <= fst p < w /\ 0 <= snd p < h))
           (findContours_external edged).
Proof.
  intros Hs Hh Hw.
  destruct (cvtColor_shape img h w Hs Hh Hw) as (gray & Hgray & Hsg).
  exists gray. split; [exact Hgray|]. intros blurred edged.
  assert (Hsb : has_shape h w blurred) by (apply separable_blur_shape; assumption).
  assert (Hse : has_shape h w edged) by (apply Canny_model_shape; assumption).
  repeat split; try apply Hsg; try apply Hsb; try apply Hse.
  pose proof (findContours_external_within edged (has_shape_own h w edged Hse Hh))
    as Hin.
  unfold within in Hin.
  rewrite (has_shape_width h w edged Hse Hh) in Hin.
  replace (height edged) with h in Hin by (symmetry; apply Hse).
  exact Hin.
Qed.

Lemma C7_stages_keep_shape_witness :
  let img : BGR := [[(255, 255, 255); (0, 0, 0); (0, 0, 0)]] in
  has_shape 1 3 img /\ 0 < 1 /\ 0 < 3 /\
  exists gray,
    cvtColor_BGR2GRAY img = inr gray /\
    let blurred := GaussianBlur_5x5 gray in
    let edged := Canny_model blurred 50 150 in
    has_shape 1 3 gray /\ has_shape 1 3 blurred /\ has_shape 1 3 edged /\
    Forall (Forall (fun p => 0 <= fst p < 3 /\ 0 <= snd p < 1))
           (findContours_external edged).
Proof.
  intros img.
  assert (Hs : has_shape 1 3 img).
  { split; [reflexivity|]. repeat constructor. }
  split; [exact Hs|]. split; [lia|]. split; [lia|].
  apply (C7_stages_keep_shape img 1 3 Hs); lia.
Defined.


(** C5, as stated, fails on pixels that are not local maxima of the
    gradient: on a three-row ramp the pixel in column 1 has gradient
    magnitude 512, above the high threshold 150, and is not an edge,
    because the larger magnitude of column 2 suppresses it. *)
Lemma C5_high_magnitude_suppressed :
  let ramp : Gray := [[0; 0; 128; 255; 255];
                      [0; 0; 128; 255; 255];
                      [0; 0; 128; 255; 255]] in
  magnitude ramp 1 1 = 512 /\
  magnitude ramp 2 1 = 1020 /\
  thinned ramp (1, 1) = 0 /\
  at_ 0 (Canny_model ramp 50 150) 1 1 = 0 /\
  Canny_model ramp 50 150 = [[0; 0; 255; 0; 0];
                             [0; 0; 255; 0; 0];
                             [0; 0; 255; 0; 0]].
Proof. vm_compute. repeat split; reflexivity. Qed.

(** C5, amended.  Modelled from the spec: [detectEdges] is [cv2.Canny], a
    library routine; it is taken as Sobel gradients, L1 magnitude,
    non-maximum suppression along the gradient direction and hysteresis.
    With [m] the gradient magnitude a pixel keeps after non-maximum
    suppression (zero when suppressed) and [low < high]: a pixel with
    [m > high] is an edge; a pixel with [low < m <= high] is an edge if and
    only if one of its eight neighbours is an edge, and then it is joined
    to a pixel above [high] by a chain of touching pixels above [low]; a
    pixel with [m <= low] is not an edge.  With [0 <= low], as in the call
    [Canny(blurred, 50, 150)], these include every suppressed pixel,
    whatever its gradient magnitude before the suppression. *)
Theorem C5_hysteresis_after_suppression (img : Gray) (low high x y : Z) :
  low < high -> 0 <= x < width img -> 0 <= y < height img ->
  let edged := Canny_model img low high in
  let edge (p : Point) := at_ 0 edged (fst p) (snd p) = 255 in
  let m := thinned img (x, y) in
  (high < m -> edge (x, y)) /\
  (low < m <= high ->
   (edge (x, y) <-> exists q, In q (neighbours (x, y)) /\ edge q)) /\
  (m <= low -> at_ 0 edged x y = 0) /\
  (0 <= low -> local_max img x y = false -> at_ 0 edged x y = 0) /\
  (edge (x, y) <-> joined (strong_pixels img low high) (candidates img low) (x, y)).
Proof.
  intros Hlh Hx Hy edged edge m.
  assert (Hedge : forall p, edge p <-> p ∈ canny_edges img low high).
  { intros [px py]. unfold edge, edged. cbn [fst snd].
    rewrite at_Canny_model.
    rewrite Z.min_l, Z.max_r by lia. reflexivity. }
  assert (Hin : 0 <= fst (x, y) < width img /\ 0 <= snd (x, y) < height img)
    by (cbn; lia).
  assert (Hlow : m <= low -> at_ 0 edged x y = 0).
  { intros Hm.
    destruct (at_Canny_model_values img low high x y) as [H255|H0]; [|exact H0].
    exfalso. apply (Hedge (x, y)) in H255.
    apply canny_edges_candidates, elem_of_candidates in H255.
    fold m in H255. lia. }
  split; [|split; [|split; [|split]]].
  - intros Hm. apply Hedge, canny_edges_step. left.
    apply elem_of_strong_pixels; [lia|]. split; assumption.
  - intros [Hlo Hhi]. rewrite Hedge, canny_edges_step. split.
    + intros [Hs|(_ & q & Hq & Hqe)].
      * apply elem_of_strong_pixels in Hs; [|lia]. fold m in Hs. lia.
      * exists q. split; [exact Hq|]. apply Hedge. exact Hqe.
    + intros (q & Hq & Hqe). right. split.
      * apply elem_of_candidates. split; assumption.
      * exists q. split; [exact Hq|]. apply Hedge. exact Hqe.
  - exact Hlow.
  - intros H0 Hsup. apply Hlow. unfold m, thinned. cbn [fst snd].
    rewrite Hsup. exact H0.
  - rewrite Hedge. unfold canny_edges.
    apply hysteresis_joined. apply strong_candidates.
Qed.

Lemma C5_hysteresis_after_suppression_witness :
  let ramp : Gray := [[0; 0; 128; 255; 255];
                      [0; 0; 128; 255; 255];
                      [0; 0; 128; 255; 255]] in
  50 < 150 /\ 0 <= 2 < width ramp /\ 0 <= 1 < height ramp /\
  150 < thinned ramp (2, 1) /\
  at_ 0 (Canny_model ramp 50 150) 2 1 = 255 /\
  0 <= 1 < width ramp /\ magnitude ramp 1 1 = 512 /\
  local_max ramp 1 1 = false /\
  at_ 0 (Canny_model ramp 50 150) 1 1 = 0.
Proof.
  intros ramp.
  assert (Hx : 0 <= 2 < width ramp) by (vm_compute; split; [discriminate|reflexivity]).
  assert (Hy : 0 <= 1 < height ramp) by (vm_compute; split; [discriminate|reflexivity]).
  assert (Hm : 150 < thinned ramp (2, 1)) by (vm_compute; reflexivity).
  assert (Hx' : 0 <= 1 < width ramp) by (vm_compute; split; [discriminate|reflexivity]).
  assert (Hraw : magnitude ramp 1 1 = 512) by (vm_compute; reflexivity).
  assert (Hsup : local_max ramp 1 1 = false) by (vm_compute; reflexivity).
  split; [lia|]. split; [exact Hx|]. split; [exact Hy|]. split; [exact Hm|].
  split.
  - destruct (C5_hysteresis_after_suppression ramp 50 150 2 1 ltac:(lia) Hx Hy)
      as (Hstrong & _).
    apply Hstrong. exact Hm.
  - split; [exact Hx'|]. split; [exact Hraw|]. split; [exact Hsup|].
    destruct (C5_hysteresis_after_suppression ramp 50 150 1 1 ltac:(lia) Hx' Hy)
      as (_ & _ & _ & Hsuppressed & _).
    apply Hsuppressed; [lia|exact Hsup].
Defined.

(** Why [0 <= low] is asked for the suppressed pixels: the magnitude a
    suppressed pixel keeps is zero, which lies between the thresholds when
    [low] is negative; on the ramp, with thresholds -1 and 0, the suppressed
    pixel of column 1 touches the edge of column 2 and is an edge. *)
Example negative_low_keeps_suppressed :
  let ramp : Gray := [[0; 0; 128; 255; 255];
                      [0; 0; 128; 255; 255];
                      [0; 0; 128; 255; 255]] in
  local_max ramp 1 1 = false /\ thinned ramp (1, 1) = 0 /\
  at_ 0 (Canny_model ramp (-1) 0) 1 1 = 255.
Proof. vm_compute. repeat split; reflexivity. Qed.

(** A fading edge: the pixels of column 2 in the last two rows keep a
    magnitude of 144, between the thresholds, and are edges because they
    touch the edge pixels above them. *)
Example weak_pixels_joined :
  let fading : Gray := [[0; 0; 20; 40; 40];
                        [0; 0; 20; 40; 40];
                        [0; 0; 18; 36; 36];
                        [0; 0; 18; 36; 36];
                        [0; 0; 18; 36; 36]] in
  thinned fading (2, 2) = 156 /\ thinned fading (2, 4) = 144 /\
  Canny_model fading 50 150 = [[0; 0; 255; 0; 0];
                               [0; 0; 255; 0; 0];
                               [0; 0; 255; 0; 0];
                               [0; 0; 255; 0; 0];
                               [0; 0; 255; 0; 0]].
Proof. vm_compute. repeat split; reflexivity. Qed.

(** The same faint edge on its own is dropped. *)
Example weak_pixels_alone :
  let faint : Gray := [[0; 0; 18; 36; 36];
                       [0; 0; 18; 36; 36];
                       [0; 0; 18; 36; 36]] in
  thinned faint (2, 1) = 144 /\
  Canny_model faint 50 150 = [[0; 0; 0; 0; 0];
                              [0; 0; 0; 0; 0];
                              [0; 0; 0; 0; 0]].
Proof. vm_compute. repeat split; reflexivity. Qed.

(** * Further properties of the service *)

(** ** The state an upload leaves *)

Lemma World_eq (a b : World) :
  fs a = fs b -> log a = log b -> uuids a = uuids b -> a = b.
Proof. destruct a, b. cbn. intros -> -> ->. reflexivity. Qed.

Section UploadEffects.
Context `{cv : CV2} `{py : PyLib}.

Lemma upload_image_effects data w :
  snd (upload_image data w) = world_of data w.
Proof.
  unfold upload_image, try_except, upload_image_body, world_of.
  destruct (data ≫= _) as [image_data|]; [|reflexivity].
  destruct (negb (allowed_file_type image_data)); [reflexivity|].
  fold (payload image_data).
  unfold mbind, Py_bind, lift at 1.
  destruct (b64decode (payload image_data)) as [e|image_bytes]; [reflexivity|].
  cbn [logging fresh_uuid write_file path_exists fs log uuids].
  fold (upload_path (uuids w)).
  set (file_path := upload_path (uuids w)).
  rewrite bool_decide_eq_true_2 by (cbn; rewrite lookup_insert_eq; eauto).
  cbn [negb].
  match goal with
  | |- context [calculate_foot_size file_path ?w'] =>
      pose proof (calculate_foot_size_run file_path w') as (Hr & Hfs & Hu & Hlog);
      destruct (calculate_foot_size file_path w') as [r w'']
  end.
  cbn [fst snd fs log uuids] in Hr, Hfs, Hu, Hlog.
  rewrite lookup_insert_eq in Hr, Hlog. subst r.
  destruct (outcome _) as [size|]; cbn [snd closing];
    apply World_eq; cbn [fs log uuids]; rewrite ?Hfs, ?Hu, ?Hlog;
    rewrite <- ?app_assoc; reflexivity.
Qed.

End UploadEffects.

Section UploadProperties.
Context `{cv : CV2} `{py : PyLib}.

Lemma response_of_image (data data' : option (gmap string string)) :
  data ≫= (fun d => d !! "image") = data' ≫= (fun d => d !! "image") ->
  response_of data = response_of data'.
Proof. unfold response_of. intros ->. reflexivity. Qed.

Lemma saved_before (path : string) (w : World) (record : LogLevel * LogMsg) :
  record <> (INFO, MsgSaved path) ->
  In (INFO, MsgSaved path) (log w ++ [record]) -> In (INFO, MsgSaved path) (log w).
Proof.
  intros Hne Hin. apply in_app_or in Hin as [Hin|[Hin|[]]]; [exact Hin|congruence].
Qed.

#[local] Ltac simp :=
  cbn -[allowed_file_type payload contours_of outcome upload_path].

(** X1.  [upload_image] never raises: every request gets a response, with
    status 200, 400 or 500; the response carries a size exactly when the
    status is 200; and the answer "Erro ao salvar a imagem." of the
    existence check after the write is never given. *)
Theorem X1_upload_always_answers (data : option (gmap string string)) (w : World) :
  exists r : Response,
    fst (upload_image data w) = inr r /\
    (status r = 200 \/ status r = 400 \/ status r = 500) /\
    (status r = 200 <-> is_Some (foot_size_cm r)) /\
    message r <> "Erro ao salvar a imagem.".
Proof.
  exists (response_of data). split; [apply upload_image_run|].
  unfold response_of.
  destruct (data ≫= _) as [image_data|]; simp.
  2:{ repeat split; auto; try discriminate. intros [? ?]; discriminate. }
  destruct (negb (allowed_file_type image_data)); simp.
  { repeat split; auto; try discriminate. intros [? ?]; discriminate. }
  destruct (b64decode (payload image_data)) as [e|bytes]; simp.
  { repeat split; auto; try discriminate. intros [? ?]; discriminate. }
  destruct (outcome _) as [size|]; simp.
  - repeat split; eauto; discriminate.
  - repeat split; auto; try discriminate. intros [? ?]; discriminate.
Qed.



(** X4.  A 200 response is given only to a request whose [image] string
    starts with an allowed header and whose payload decodes to bytes that
    [calculate_foot_size] measures; the size in the response is that
    measurement. *)
Theorem X4_upload_success_only_if (data : option (gmap string string))
    (w : World) (r : Response) :
  fst (upload_image data w) = inr r -> status r = 200 ->
  exists d s image_bytes size,
    data = Some d /\ d !! "image" = Some s /\
    allowed_file_type s = true /\
    b64decode (payload s) = inr image_bytes /\
    outcome (contours_of (Some image_bytes)) = Some size /\
    r = mkResponse "Imagem processada com sucesso!" (Some size) 200.
Proof.
  rewrite upload_image_run. intros [= <-]. unfold response_of.
  destruct data as [d|];  simp; [|discriminate].
  destruct (d !! "image") as [s|] eqn:Hs;  simp; [|discriminate].
  destruct (allowed_file_type s) eqn:Ha;  simp; [|discriminate].
  destruct (b64decode (payload s)) as [e|bytes] eqn:Hb;  simp; [discriminate|].
  destruct (outcome _) as [size|] eqn:Ho;  simp; [|discriminate].
  intros _. exists d, s, bytes, size. repeat split; auto.
Qed.


(** X6.  Whatever the request, [upload_image] leaves every file other than
    the one named from the next uuid as it was, deletes nothing, and only
    appends to the log. *)
Theorem X6_upload_touches_one_file (data : option (gmap string string))
    (w : World) (path : string) :
  path <> upload_path (uuids w) ->
  let after := snd (upload_image data w) in
  fs after !! path = fs w !! path /\
  (forall p, is_Some (fs w !! p) -> is_Some (fs after !! p)) /\
  exists added, log after = log w ++ added.
Proof.
  intros Hne after. unfold after. rewrite upload_image_effects. unfold world_of.
  destruct (data ≫= _) as [s|];  simp; [|eauto].
  destruct (negb (allowed_file_type s));  simp; [eauto|].
  destruct (b64decode (payload s)) as [e|bytes];  simp; [eauto|].
  split; [|split].
  - apply lookup_insert_ne. congruence.
  - intros p Hp. destruct (decide (upload_path (uuids w) = p)) as [->|Hp'].
    + rewrite lookup_insert_eq. eauto.
    + rewrite lookup_insert_ne by exact Hp'. exact Hp.
  - eauto.
Qed.

End UploadProperties.

(** ** Strings: headers, payloads and file names *)

Lemma string_app_cons (c : ascii) (a b : string) :
  (String c a ++ b)%string = String c (a ++ b)%string.
Proof. reflexivity. Qed.

Lemma string_app_nil (b : string) : (EmptyString ++ b)%string = b.
Proof. reflexivity. Qed.

Lemma string_app_inv_head (p a b : string) :
  (p ++ a)%string = (p ++ b)%string -> a = b.
Proof.
  induction p as [|c p IH]; rewrite ?string_app_nil, ?string_app_cons; [auto|].
  intros [= H]. auto.
Qed.

Lemma string_length_app (a b : string) :
  String.length (a ++ b) = (String.length a + String.length b)%nat.
Proof.
  induction a as [|c a IH]; rewrite ?string_app_nil, ?string_app_cons;
    cbn [String.length]; [reflexivity|].
  rewrite IH. reflexivity.
Qed.

Lemma string_app_inv_tail (s a b : string) :
  (a ++ s)%string = (b ++ s)%string -> a = b.
Proof.
  revert b. induction a as [|c a IH]; intros [|c' b] H;
    rewrite ?string_app_nil, ?string_app_cons in H.
  - reflexivity.
  - apply (f_equal String.length) in H. cbn [String.length] in H.
    rewrite string_length_app in H. lia.
  - apply (f_equal String.length) in H. cbn [String.length] in H.
    rewrite string_length_app in H. lia.
  - injection H as -> H. f_equal. apply IH. exact H.
Qed.

Lemma prefix_app (p s : string) :
  String.prefix p s = true <-> exists rest, s = (p ++ rest)%string.
Proof.
  revert s. induction p as [|c p IH]; intros s.
  - split; [eauto|]. intros _. destruct s; reflexivity.
  - destruct s as [|c' s]; cbn [String.prefix].
    + split; [discriminate|]. intros [rest H]. discriminate.
    + destruct (ascii_dec c c') as [->|Hne].
      * rewrite IH. split; intros [rest H]; exists rest;
          rewrite ?string_app_cons in *; congruence.
      * split; [discriminate|]. intros [rest H].
        rewrite string_app_cons in H. congruence.
Qed.

Lemma split_cons (sep : ascii) (s : string) :
  exists piece pieces, split sep s = piece :: pieces.
Proof.
  induction s as [|c s (piece & pieces & IH)]; cbn [split]; [eauto|].
  destruct (Ascii.eqb c sep); [eauto|]. rewrite IH. eauto.
Qed.

Lemma split_plain (sep : ascii) (s : string) :
  contains sep s = false -> split sep s = [s].
Proof.
  induction s as [|c s IH]; cbn [split contains]; [reflexivity|].
  destruct (Ascii.eqb c sep); cbn [orb]; [discriminate|].
  intros H. rewrite (IH H). reflexivity.
Qed.

Lemma split_at_sep (sep : ascii) (a b : string) :
  contains sep a = false ->
  split sep (a ++ String sep b) = a :: split sep b.
Proof.
  induction a as [|c a IH]; rewrite ?string_app_nil, ?string_app_cons;
    cbn [split contains].
  - intros _. rewrite Ascii.eqb_refl. reflexivity.
  - destruct (Ascii.eqb c sep); cbn [orb]; [discriminate|].
    intros H. rewrite (IH H). reflexivity.
Qed.

Lemma contains_app (sep : ascii) (a b : string) :
  contains sep (a ++ b) = contains sep a || contains sep b.
Proof.
  induction a as [|c a IH]; rewrite ?string_app_nil, ?string_app_cons;
    cbn [contains orb]; [reflexivity|].
  rewrite IH. apply orb_assoc.
Qed.

(** X7.  [allowed_file_type] looks at the header only: it accepts exactly
    the strings that start with [data:image/png;] or [data:image/jpeg;],
    whatever follows. *)
Theorem X7_allowed_file_type_header (image_data : string) :
  allowed_file_type image_data = true <->
  exists rest,
    image_data = ("data:image/png;" ++ rest)%string \/
    image_data = ("data:image/jpeg;" ++ rest)%string.
Proof.
  unfold allowed_file_type. cbn [existsb].
  rewrite orb_false_r, orb_true_iff, !prefix_app.
  split.
  - intros [[rest H]|[rest H]]; exists rest; auto.
  - intros [rest [H|H]]; [left|right]; exists rest; exact H.
Qed.

(** X8.  What is handed to the base64 decoder (lines 110-111): a string
    without a comma is decoded whole, header included; otherwise the piece
    between the first and the second comma is decoded and whatever follows
    a second comma is dropped.  Under the [',' in image_data] test the
    index [1] of the split always exists. *)
Theorem X8_payload_between_commas (image_data : string) :
  (contains ","%char image_data = false -> payload image_data = image_data) /\
  (forall header body,
      contains ","%char header = false -> contains ","%char body = false ->
      image_data = (header ++ "," ++ body)%string ->
      payload image_data = body) /\
  (forall header body rest,
      contains ","%char header = false -> contains ","%char body = false ->
      image_data = (header ++ "," ++ body ++ "," ++ rest)%string ->
      payload image_data = body) /\
  (contains ","%char image_data = true ->
   (1 < length (split ","%char image_data))%nat).
Proof.
  unfold payload. split; [|split; [|split]].
  - intros ->. reflexivity.
  - intros header body Hh Hb ->.
    rewrite string_app_cons, string_app_nil.
    rewrite contains_app. cbn [contains]. rewrite Ascii.eqb_refl.
    rewrite orb_true_r.
    rewrite split_at_sep by exact Hh. rewrite split_plain by exact Hb. reflexivity.
  - intros header body rest Hh Hb ->.
    rewrite !string_app_cons, !string_app_nil.
    rewrite contains_app. cbn [contains]. rewrite Ascii.eqb_refl.
    rewrite orb_true_r.
    rewrite split_at_sep by exact Hh. rewrite split_at_sep by exact Hb.
    reflexivity.
  - induction image_data as [|c s IH]; cbn [contains split]; [discriminate|].
    destruct (Ascii.eqb c ","%char); cbn [orb].
    + intros _. destruct (split_cons ","%char s) as (piece & pieces & ->).
      cbn [length]. lia.
    + intros H. specialize (IH H).
      destruct (split ","%char s) as [|piece pieces]; cbn [length] in *; lia.
Qed.

Lemma concat_cons2 (sep a b : string) (l : list string) :
  String.concat sep (a :: b :: l) = (a ++ sep ++ String.concat sep (b :: l))%string.
Proof. reflexivity. Qed.

(** X9.  [split] loses nothing: the pieces hold no separator and joining
    them with the separator gives the string back. *)
Theorem X9_split_join_round_trip (sep : ascii) (s : string) :
  String.concat (String sep EmptyString) (split sep s) = s /\
  Forall (fun piece => contains sep piece = false) (split sep s).
Proof.
  induction s as [|c s [IHj IHc]]; cbn [split].
  - split; [reflexivity|]. repeat constructor.
  - destruct (Ascii.eqb_spec c sep) as [->|Hne].
    + destruct (split_cons sep s) as (piece & pieces & E).
      rewrite E in *. split.
      * rewrite concat_cons2, IHj. reflexivity.
      * constructor; [reflexivity|exact IHc].
    + assert (Hc : forall piece, contains sep piece = false ->
                                 contains sep (String c piece) = false).
      { intros piece Hp. cbn [contains]. rewrite Hp.
        rewrite (proj2 (Ascii.eqb_neq c sep) Hne). reflexivity. }
      destruct (split sep s) as [|piece [|piece' pieces]].
      * cbn [String.concat] in IHj. subst s. split; [reflexivity|].
        constructor; [|constructor]. apply Hc. reflexivity.
      * cbn [String.concat] in *. subst s. split; [reflexivity|].
        inversion IHc; subst. constructor; [|constructor]. apply Hc. assumption.
      * rewrite concat_cons2 in *. rewrite string_app_cons, IHj. split; [reflexivity|].
        inversion IHc; subst. constructor; [|assumption]. apply Hc. assumption.
Qed.

Section UploadSequence.
Context `{cv : CV2} `{py : PyLib}.

Lemma upload_path_inj (n m : nat) :
  upload_path n = upload_path m -> uuid4_hex n = uuid4_hex m.
Proof.
  unfold upload_path, path_join. intros H.
  apply string_app_inv_head in H. apply string_app_inv_head in H.
  apply string_app_inv_head in H. apply string_app_inv_tail in H. exact H.
Qed.

Lemma accepted_upload_world (d : gmap string string) (s : string)
    (image_bytes : Bytes) (w : World) :
  d !! "image" = Some s -> allowed_file_type s = true ->
  b64decode (payload s) = inr image_bytes ->
  fs (snd (upload_image (Some d) w)) = <[upload_path (uuids w) := image_bytes]> (fs w) /\
  uuids (snd (upload_image (Some d) w)) = S (uuids w).
Proof.
  intros Hs Ha Hb. rewrite upload_image_effects. unfold world_of.
  cbn [mbind option_bind]. rewrite Hs, Ha. cbn [negb]. rewrite Hb.
  split; reflexivity.
Qed.


End UploadSequence.

(** ** The measurement *)

(** X11.  Every size [calculate_foot_size] returns is a whole number of
    fifths of a centimetre: with [wd] the width in pixels of the bounding
    rectangle of the selected contour, the value returned after the
    rounding is [20 * wd] hundredths, the decimal [wd / 5].  So the second
    decimal that [round(_, 2)] keeps is always zero, and no size below 0.2
    is returned for a contour that has a point. *)
Theorem X11_size_in_fifths `{cv : CV2} (path : string) (w : World) (size : Q) :
  fst (calculate_foot_size path w) = inr (Some size) ->
  exists c cs wd,
    contours_of (fs w !! path) = inr (Some (c :: cs)) /\
    wd = snd (fst (boundingRect (max_from contourArea c cs))) /\
    0 <= wd /\
    size = Qmake (20 * wd) 100 /\
    (size == wd # 5)%Q /\
    (max_from contourArea c cs <> [] -> 1 <= wd /\ (2 # 10 <= size)%Q).
Proof.
  destruct (calculate_foot_size_run path w) as (Hr & _).
  rewrite Hr. intros [= Hsize].
  destruct (contours_of (fs w !! path)) as [e|[[|c cs]|]]; try discriminate.
  cbn [outcome] in Hsize. injection Hsize as <-.
  exists c, cs, (snd (fst (boundingRect (max_from contourArea c cs)))).
  split; [reflexivity|]. split; [reflexivity|].
  pose proof (boundingRect_width_nonneg (max_from contourArea c cs)) as Hw.
  split; [exact Hw|].
  assert (Hsize : size_of (max_from contourArea c cs)
                  = Qmake (20 * snd (fst (boundingRect (max_from contourArea c cs)))) 100).
  { unfold size_of.
    destruct (boundingRect (max_from contourArea c cs)) as [[[x y] wd] h].
    apply py_round_conv. }
  split; [exact Hsize|]. split.
  - rewrite Hsize. unfold Qeq. cbn [Qnum Qden]. lia.
  - intros Hne.
    destruct (boundingRect (max_from contourArea c cs)) as [[[x y] wd] h] eqn:Hbox.
    destruct (boundingRect_spec _ x y wd h Hne Hbox) as (Hall & _).
    destruct (max_from contourArea c cs) as [|p r]; [congruence|].
    inversion Hall as [|? ? Hp _]; subst. cbn [fst snd] in *.
    split; [lia|]. rewrite Hsize. unfold Qle. cbn [Qnum Qden]. lia.
Qed.

Lemma last_cons {A} (a d : A) (l : list A) : List.last (a :: l) d = List.last l a.
Proof.
  revert a d. induction l as [|b l IH]; intros a d; [reflexivity|].
  change (List.last (a :: b :: l) d) with (List.last (b :: l) d).
  rewrite (IH b d), (IH b a). reflexivity.
Qed.

Section Translation.
Context (dx dy : Z).

Lemma last_shift (c : Contour) (d : Point) :
  List.last (shift dx dy c) (move_by dx dy d) = move_by dx dy (List.last c d).
Proof.
  revert d. induction c as [|p r IH]; intros d; [reflexivity|].
  change (shift dx dy (p :: r)) with (move_by dx dy p :: shift dx dy r).
  rewrite !last_cons. apply IH.
Qed.

Lemma shoelace_shift (c : Contour) : forall prev,
  shoelace (move_by dx dy prev) (shift dx dy c)
  = shoelace prev c + dx * (snd (List.last c prev) - snd prev)
                    - dy * (fst (List.last c prev) - fst prev).
Proof.
  induction c as [|p r IH]; intros prev.
  - cbn. lia.
  - change (shift dx dy (p :: r)) with (move_by dx dy p :: shift dx dy r).
    cbn [shoelace]. rewrite IH, last_cons. unfold move_by. cbn [fst snd]. lia.
Qed.

Lemma contourArea_shift (c : Contour) :
  contourArea (shift dx dy c) = contourArea c.
Proof.
  destruct c as [|p r]; [reflexivity|].
  assert (H : shoelace (List.last (shift dx dy (p :: r)) (move_by dx dy p))
                       (shift dx dy (p :: r))
              = shoelace (List.last (p :: r) p) (p :: r)).
  { rewrite last_shift, shoelace_shift.
    rewrite (last_cons p (List.last (p :: r) p) r), (last_cons p p r). lia. }
  change (contourArea (shift dx dy (p :: r)))
    with (Qabs (inject_Z (shoelace (List.last (shift dx dy (p :: r)) (move_by dx dy p))
                                   (shift dx dy (p :: r))) * (1 # 2))).
  rewrite H. reflexivity.
Qed.

Lemma fold_extend_shift (r : Contour) : forall a b c d,
  fold_left extend (shift dx dy r) (a + dx, b + dy, c + dx, d + dy)
  = let '(a', b', c', d') := fold_left extend r (a, b, c, d) in
    (a' + dx, b' + dy, c' + dx, d' + dy).
Proof.
  induction r as [|p r IH]; intros a b c d; [reflexivity|].
  change (shift dx dy (p :: r)) with (move_by dx dy p :: shift dx dy r).
  cbn [fold_left extend move_by fst snd].
  rewrite !Z.add_min_distr_r, !Z.add_max_distr_r. apply IH.
Qed.

Lemma boundingRect_shift (c : Contour) (x y w h : Z) :
  c <> [] -> boundingRect c = (x, y, w, h) ->
  boundingRect (shift dx dy c) = (x + dx, y + dy, w, h).
Proof.
  destruct c as [|p r]; [congruence|]. intros _.
  change (shift dx dy (p :: r)) with (move_by dx dy p :: shift dx dy r).
  unfold boundingRect, move_by. cbn [fst snd]. rewrite fold_extend_shift.
  destruct (fold_left extend r _) as [[[a b] m] n].
  intros [= <- <- <- <-]. f_equal; [f_equal|]; lia.
Qed.

Lemma size_of_shift (c : Contour) : size_of (shift dx dy c) = size_of c.
Proof.
  destruct c as [|p r]; [reflexivity|].
  unfold size_of.
  destruct (boundingRect (p :: r)) as [[[x y] w] h] eqn:Hbox.
  rewrite (boundingRect_shift (p :: r) x y w h) by (congruence || exact Hbox).
  reflexivity.
Qed.

Lemma max_from_shift (cs : list Contour) : forall c,
  max_from contourArea (shift dx dy c) (map (shift dx dy) cs)
  = shift dx dy (max_from contourArea c cs).
Proof.
  induction cs as [|x cs IH]; intros c; [reflexivity|].
  cbn [map max_from]. rewrite !contourArea_shift.
  destruct (Qle_bool (contourArea x) (contourArea c)); apply IH.
Qed.

(** X12.  Moving the object in the picture does not change the result:
    when every contour is moved by the same [(dx, dy)], the areas are the
    same, the same contour is selected, its bounding rectangle moves along
    with unchanged width and height, and the size returned is the same. *)
Theorem X12_measure_translation_invariant (contours : list Contour) :
  Forall (fun c => contourArea (shift dx dy c) = contourArea c) contours /\
  (forall c cs, contours = c :: cs ->
     py_max contourArea (map (shift dx dy) contours)
     = inr (shift dx dy (max_from contourArea c cs))) /\
  (forall c x y w h, c <> [] -> boundingRect c = (x, y, w, h) ->
     boundingRect (shift dx dy c) = (x + dx, y + dy, w, h)) /\
  outcome (inr (Some (map (shift dx dy) contours))) = outcome (inr (Some contours)).
Proof.
  split; [|split; [|split]].
  - apply List.Forall_forall. intros c _. apply contourArea_shift.
  - intros c cs ->. cbn [map py_max]. rewrite max_from_shift. reflexivity.
  - intros c x y w h. apply boundingRect_shift.
  - destruct contours as [|c cs]; [reflexivity|].
    cbn [map outcome]. rewrite max_from_shift, size_of_shift. reflexivity.
Qed.

End Translation.

Lemma max_from_greatest {A} (key : A -> Q) (l : list A) (best x : A) :
  In x (best :: l) -> (key x <= key (max_from key best l))%Q.
Proof.
  intros Hx.
  destruct (max_from_split key l best) as (pre & post & Heq & Hpre & Hpost).
  rewrite Heq in Hx. rewrite List.Forall_forall in Hpre, Hpost.
  apply in_app_or in Hx as [Hx|[<-|Hx]].
  - apply Qlt_le_weak. apply Hpre. exact Hx.
  - apply Qle_refl.
  - apply Hpost. exact Hx.
Qed.


(** X14.  The order in which the contours are listed does not change the
    area of the contour selected: for two listings of the same contours
    the selected ones have equal area.  (Among contours of equal largest
    area the listing decides which one is taken.) *)
Theorem X14_selected_area_ignores_order (contours contours' : list Contour)
    (largest largest' : Contour) :
  Permutation contours contours' ->
  py_max contourArea contours = inr largest ->
  py_max contourArea contours' = inr largest' ->
  (contourArea largest == contourArea largest')%Q /\
  In largest contours' /\ In largest' contours.
Proof.
  intros Hperm Hmax Hmax'.
  destruct contours as [|c cs]; [discriminate|].
  destruct contours' as [|c' cs']; [discriminate|].
  cbn [py_max] in Hmax, Hmax'. injection Hmax as <-. injection Hmax' as <-.
  assert (Hin : In (max_from contourArea c cs) (c' :: cs'))
    by (eapply Permutation_in; [exact Hperm|apply max_from_In]).
  assert (Hin' : In (max_from contourArea c' cs') (c :: cs))
    by (eapply Permutation_in; [apply Permutation_sym; exact Hperm|apply max_from_In]).
  split; [|split; assumption].
  apply Qle_antisym; apply max_from_greatest; assumption.
Qed.

(** Two contours of equal area and different width: the size returned
    follows the order in which they are listed. *)
Example equal_areas_order_decides_size :
  let wide : Contour := [(0, 0); (0, 1); (4, 1); (4, 0)] in
  let tall : Contour := [(0, 0); (0, 4); (1, 4); (1, 0)] in
  contourArea wide = contourArea tall /\
  outcome (inr (Some [wide; tall])) = Some (Qmake 100 100) /\
  outcome (inr (Some [tall; wide])) = Some (Qmake 40 100).
Proof. vm_compute. repeat split; reflexivity. Qed.

(** ** A picture of one colour *)

Lemma sobel_uniform (v : Z) (img : Gray) (h w x y : Z) :
  has_shape h w img -> uniform v img -> 0 < h -> 0 < w ->
  sobel_x img x y = 0 /\ sobel_y img x y = 0.
Proof.
  intros Hs Hu Hh Hw.
  assert (Hat : forall i j,
             at_ 0 img (border_replicate (width img) (x + i))
                       (border_replicate (height img) (y + j)) = v).
  { intros i j. rewrite (has_shape_width h w img Hs Hh).
    replace (height img) with h by (symmetry; apply Hs).
    apply (at_uniform v img h w); auto using border_replicate_range. }
  unfold sobel_x, sobel_y. rewrite !Hat. lia.
Qed.

Lemma thinned_uniform (v : Z) (img : Gray) (h w : Z) (p : Point) :
  has_shape h w img -> uniform v img -> 0 < h -> 0 < w -> thinned img p = 0.
Proof.
  intros Hs Hu Hh Hw. unfold thinned, magnitude.
  destruct (sobel_uniform v img h w (fst p) (snd p) Hs Hu Hh Hw) as [-> ->].
  destruct (local_max _ _ _); [destruct (inside _ _ _)|]; reflexivity.
Qed.

Lemma filter_none {A} (f : A -> bool) (l : list A) :
  (forall x, f x = false) -> List.filter f l = [].
Proof.
  intros Hf. induction l as [|a l IH]; cbn; [reflexivity|].
  rewrite Hf. exact IH.
Qed.

Lemma canny_edges_uniform (v : Z) (img : Gray) (h w low high : Z) :
  has_shape h w img -> uniform v img -> 0 < h -> 0 < w -> 0 <= low ->
  canny_edges img low high = ∅.
Proof.
  intros Hs Hu Hh Hw Hlow.
  assert (Hc : candidates img low = ∅).
  { unfold candidates. rewrite filter_none; [reflexivity|].
    intros p. rewrite (thinned_uniform v img h w p Hs Hu Hh Hw).
    apply Z.ltb_ge. exact Hlow. }
  unfold canny_edges, hysteresis, strong_pixels. rewrite Hc.
  rewrite size_empty. unfold rounds. cbn [Nat.iter].
  apply set_eq. intros p. split; [|intros Hp; apply not_elem_of_empty in Hp; contradiction].
  intros Hp. apply elem_of_filter in Hp. tauto.
Qed.

Lemma uniform_tabulate (v : Z) (w h : Z) : uniform v (tabulate w h (fun _ _ => v)).
Proof.
  unfold uniform, tabulate. apply List.Forall_forall. intros row Hrow.
  apply in_map_iff in Hrow as (y & <- & _).
  apply List.Forall_forall. intros a Ha.
  apply in_map_iff in Ha as (x & <- & _). reflexivity.
Qed.

Lemma Canny_model_uniform (v : Z) (img : Gray) (h w t1 t2 : Z) :
  has_shape h w img -> uniform v img -> 0 < h -> 0 < w ->
  0 <= t1 -> 0 <= t2 ->
  uniform 0 (Canny_model img t1 t2).
Proof.
  intros Hs Hu Hh Hw H1 H2. unfold Canny_model.
  rewrite (canny_edges_uniform v img h w) by (auto; lia).
  rewrite (tabulate_ext _ _ _ (fun _ _ => 0)).
  - apply uniform_tabulate.
  - intros x y _ _. rewrite bool_decide_eq_false_2; [reflexivity|].
    apply not_elem_of_empty.
Qed.

Lemma uniform_map {A} (f : A -> Z) (px : A) (img : list (list A)) :
  Forall (Forall (eq px)) img -> uniform (f px) (map (map f) img).
Proof.
  intros Hu. unfold uniform. apply List.Forall_forall. intros row Hrow.
  apply in_map_iff in Hrow as (row0 & <- & Hin).
  rewrite List.Forall_forall in Hu. specialize (Hu _ Hin).
  apply List.Forall_forall. intros a Ha.
  apply in_map_iff in Ha as (a0 & <- & Ha0).
  rewrite List.Forall_forall in Hu. rewrite (Hu _ Ha0). reflexivity.
Qed.

(** X15.  With the OpenCV stages as modelled here (luminance, 5x5 blur,
    Canny with thresholds 50 and 150, external contours) and whatever way
    [cv2.imread] decodes files: when the file is decoded to a picture whose
    pixels all have the same colour, of any size, there is no gradient,
    hence no edge and no contour, and [calculate_foot_size] returns [None]
    with the warning that no contour was found. *)
Theorem X15_one_colour_not_detected (decode : Bytes -> option BGR)
    (path : string) (w : World) (image_bytes : Bytes)
    (img : BGR) (h wd : Z) (px : Pixel) :
  fs w !! path = Some image_bytes ->
  decode image_bytes = Some img ->
  has_shape h wd img -> 0 < h -> 0 < wd ->
  Forall (Forall (eq px)) img ->
  fst (@calculate_foot_size (opencv_with decode) path w) = inr None /\
  log (snd (@calculate_foot_size (opencv_with decode) path w))
    = log w ++ [(INFO, MsgLoaded path); (WARNING, MsgNoContour)].
Proof.
  intros Hfile Hdec Hs Hh Hw Hpx.
  assert (Hfound : @contours_of (opencv_with decode) (fs w !! path) = inr (Some [])).
  { rewrite Hfile. unfold contours_of.
    cbn -[cvtColor_BGR2GRAY GaussianBlur_5x5 Canny_model findContours_external].
    rewrite Hdec.
    destruct (cvtColor_shape img h wd Hs Hh Hw) as (gray & Hgray & Hsg).
    rewrite Hgray.
    assert (Hug : uniform (bgr2gray px) gray).
    { unfold cvtColor_BGR2GRAY in Hgray.
      destruct ((height img =? 0) || (width img =? 0)); [discriminate|].
      injection Hgray as <-. apply uniform_map. exact Hpx. }
    unfold GaussianBlur_5x5.
    rewrite (separable_blur_uniform gaussian_kernel5 (bgr2gray px) gray h wd)
      by (auto; unfold weight; cbn; lia).
    rewrite findContours_external_blank; [reflexivity|].
    apply (Canny_model_uniform (bgr2gray px) gray h wd); auto; lia. }
  destruct (@calculate_foot_size_run (opencv_with decode) path w)
    as (Hr & _ & _ & Hlog).
  rewrite Hfound in Hr, Hlog. split; assumption.
Qed.

(** ** Rounding *)

Lemma round_half_even_mono (x y : Q) :
  (x <= y)%Q -> round_half_even x <= round_half_even y.
Proof.
  intros Hxy. unfold round_half_even.
  pose proof (Qfloor_le x) as Hlx. pose proof (Qlt_floor x) as Hux.
  pose proof (Qfloor_le y) as Hly. pose proof (Qlt_floor y) as Huy.
  pose proof (Qfloor_resp_le x y Hxy) as Hf.
  rewrite inject_Z_plus in Hux, Huy. change (inject_Z 1) with 1%Q in Hux, Huy.
  destruct (Z.eq_dec (Qfloor x) (Qfloor y)) as [E|E].
  - rewrite <- E in *.
    destruct (Qcompare_spec (x - inject_Z (Qfloor x)) (1 # 2)) as [Hx|Hx|Hx];
      destruct (Qcompare_spec (y - inject_Z (Qfloor x)) (1 # 2)) as [Hy|Hy|Hy];
      try destruct (Z.even (Qfloor x)); try lia; exfalso; lra.
  - assert (Hlt : Qfloor x + 1 <= Qfloor y) by lia.
    destruct (Qcompare (x - inject_Z (Qfloor x)) (1 # 2));
      destruct (Qcompare (y - inject_Z (Qfloor y)) (1 # 2));
      try destruct (Z.even (Qfloor x)); try destruct (Z.even (Qfloor y)); lia.
Qed.

Lemma round_half_even_inject (n : Z) : round_half_even (inject_Z n) = n.
Proof.
  unfold round_half_even. rewrite Qfloor_Z.
  replace (Qcompare (inject_Z n - inject_Z n) (1 # 2)) with Lt; [reflexivity|].
  symmetry. rewrite <- Qlt_alt. lra.
Qed.

(** X16.  [round(x, 2)] as used for the size: the result is a whole number
    of hundredths within half a hundredth of [x], it is not negative when
    [x] is not, a larger [x] never gives a smaller result, and rounding a
    rounded value changes nothing. *)
Theorem X16_round_two_decimals (x : Q) :
  (exists n : Z, py_round x 2 = Qmake n 100) /\
  (py_round x 2 - (1 # 200) <= x <= py_round x 2 + (1 # 200))%Q /\
  ((0 <= x)%Q -> (0 <= py_round x 2)%Q) /\
  (forall y, (x <= y)%Q -> (py_round x 2 <= py_round y 2)%Q) /\
  py_round (py_round x 2) 2 = py_round x 2.
Proof.
  unfold py_round. change (Z.to_pos (10 ^ Z.of_nat 2)) with 100%positive.
  change (inject_Z (Z.pos 100)) with (100 # 1)%Q.
  split; [eexists; reflexivity|]. split; [|split; [|split]].
  - pose proof (round_half_even_near (x * (100 # 1))) as [Hlo Hhi].
    set (n := round_half_even (x * (100 # 1))) in *.
    assert (Hn : (Qmake n 100 == inject_Z n * (1 # 100))%Q).
    { unfold Qeq, Qmult, inject_Z. cbn [Qnum Qden]. lia. }
    rewrite Hn. split; lra.
  - intros Hx. unfold Qle. cbn [Qnum Qden]. rewrite Z.mul_1_r, Z.mul_0_l.
    rewrite <- (round_half_even_inject 0). apply round_half_even_mono.
    change (inject_Z 0) with 0%Q. lra.
  - intros y Hxy. unfold Qle. cbn [Qnum Qden].
    apply Z.mul_le_mono_nonneg_r; [lia|].
    apply round_half_even_mono. lra.
  - f_equal.
    set (n := round_half_even (x * (100 # 1))).
    assert (Hn : (Qmake n 100 * (100 # 1) == inject_Z n)%Q).
    { unfold Qeq, Qmult, inject_Z. cbn [Qnum Qden]. lia. }
    assert (H1 : (Qmake n 100 * (100 # 1) <= inject_Z n)%Q)
      by (rewrite Hn; apply Qle_refl).
    assert (H2 : (inject_Z n <= Qmake n 100 * (100 # 1))%Q)
      by (rewrite Hn; apply Qle_refl).
    assert (Hle1 := round_half_even_mono _ _ H1).
    assert (Hle2 := round_half_even_mono _ _ H2).
    rewrite round_half_even_inject in Hle1, Hle2. lia.
Qed.

(** ** Log and answer *)

(** X17.  The log tells what was answered: every upload ends with one
    closing record, which is the "size computed" record with the size of
    the response exactly when the answer is the 200 response, and the "not
    detected" warning exactly when the answer is the 400 "not detected"
    response. *)
Theorem X17_last_record_tells_answer `{cv : CV2} `{py : PyLib}
    (data : option (gmap string string)) (w : World) :
  exists added record r,
    fst (upload_image data w) = inr r /\
    log (snd (upload_image data w)) = log w ++ added ++ [record] /\
    (forall size, record = (INFO, MsgSizeOk size) <-> r = respond (Some size)) /\
    (record = (WARNING, MsgNotDetected) <-> r = respond None).
Proof.
  rewrite upload_image_effects, upload_image_run.
  unfold world_of, response_of.
  destruct (data ≫= _) as [s|].
  2:{ exists [], (WARNING, MsgNoImageData). eexists.
      repeat split; try reflexivity; discriminate. }
  destruct (negb (allowed_file_type s)).
  { exists [], (ERROR, MsgBadType). eexists.
    repeat split; try reflexivity; discriminate. }
  destruct (b64decode (payload s)) as [e|image_bytes].
  { exists [], (ERROR, MsgRequestError e). eexists.
    repeat split; try reflexivity; discriminate. }
  eexists (_ :: _ :: records _ _), (closing _). eexists.
  split; [reflexivity|]. split.
  { cbn [log app]. reflexivity. }
  destruct (outcome _) as [v|]; cbn [closing respond].
  - split; [|split; discriminate].
    intros size. split; intros [= ->]; reflexivity.
  - split; [|split; reflexivity].
    intros size. split; discriminate.
Qed.

(** ** Worked instances *)

Lemma X4_upload_success_only_if_witness :
  let r := mkResponse "Imagem processada com sucesso!" (Some (Qmake 20 100)) 200 in
  fst (upload_image (Some strip_request) (mkWorld ∅ [] 0)) = inr r /\
  status r = 200 /\
  exists d s image_bytes size,
    Some strip_request = Some d /\ d !! "image" = Some s /\
    allowed_file_type s = true /\
    b64decode (payload s) = inr image_bytes /\
    outcome (contours_of (Some image_bytes)) = Some size /\
    r = mkResponse "Imagem processada com sucesso!" (Some size) 200.
Proof.
  intros r.
  assert (Hrun : fst (upload_image (Some strip_request) (mkWorld ∅ [] 0)) = inr r)
    by (vm_compute; reflexivity).
  assert (Hst : status r = 200) by reflexivity.
  split; [exact Hrun|]. split; [exact Hst|].
  exact (X4_upload_success_only_if (Some strip_request) (mkWorld ∅ [] 0) r Hrun Hst).
Defined.


Lemma X6_upload_touches_one_file_witness :
  let w := mkWorld {["kept.png" := junk_bytes]} [] 0 in
  "kept.png" <> upload_path (uuids w) /\
  fs (snd (upload_image (Some strip_request) w)) !! "kept.png" = fs w !! "kept.png".
Proof.
  intros w.
  assert (Hne : "kept.png" <> upload_path (uuids w)) by (vm_compute; discriminate).
  split; [exact Hne|].
  exact (proj1 (X6_upload_touches_one_file (Some strip_request) w "kept.png" Hne)).
Defined.


Lemma X11_size_in_fifths_witness :
  let w := mkWorld {["foot.png" := square_ppm]} [] 0 in
  fst (calculate_foot_size "foot.png" w) = inr (Some (Qmake 80 100)) /\
  exists c cs wd,
    contours_of (fs w !! "foot.png") = inr (Some (c :: cs)) /\
    wd = snd (fst (boundingRect (max_from contourArea c cs))) /\
    0 <= wd /\
    Qmake 80 100 = Qmake (20 * wd) 100 /\
    (Qmake 80 100 == wd # 5)%Q /\
    (max_from contourArea c cs <> [] -> 1 <= wd /\ (2 # 10 <= Qmake 80 100)%Q).
Proof.
  intros w.
  assert (Hrun : fst (calculate_foot_size "foot.png" w) = inr (Some (Qmake 80 100)))
    by (vm_compute; reflexivity).
  split; [exact Hrun|].
  exact (X11_size_in_fifths "foot.png" w (Qmake 80 100) Hrun).
Defined.


Lemma X14_selected_area_ignores_order_witness :
  let wide : Contour := [(0, 0); (0, 1); (4, 1); (4, 0)] in
  let tall : Contour := [(0, 0); (0, 4); (1, 4); (1, 0)] in
  Permutation [wide; tall] [tall; wide] /\
  py_max contourArea [wide; tall] = inr wide /\
  py_max contourArea [tall; wide] = inr tall /\
  (contourArea wide == contourArea tall)%Q.
Proof.
  intros wide tall.
  assert (Hperm : Permutation [wide; tall] [tall; wide]) by apply perm_swap.
  assert (H1 : py_max contourArea [wide; tall] = inr wide) by (vm_compute; reflexivity).
  assert (H2 : py_max contourArea [tall; wide] = inr tall) by (vm_compute; reflexivity).
  do 3 (split; [assumption|]).
  exact (proj1 (X14_selected_area_ignores_order _ _ wide tall Hperm H1 H2)).
Defined.

Lemma X15_one_colour_not_detected_witness :
  let w := mkWorld {["grey.png" := grey_ppm]} [] 0 in
  let img : BGR := [[(90, 90, 90); (90, 90, 90); (90, 90, 90)];
                    [(90, 90, 90); (90, 90, 90); (90, 90, 90)]] in
  fs w !! "grey.png" = Some grey_ppm /\
  ppm_decode grey_ppm = Some img /\
  has_shape 2 3 img /\ 0 < 2 /\ 0 < 3 /\
  Forall (Forall (eq (90, 90, 90))) img /\
  fst (@calculate_foot_size (opencv_with ppm_decode) "grey.png" w) = inr None.
Proof.
  intros w img.
  assert (H1 : fs w !! "grey.png" = Some grey_ppm) by (vm_compute; reflexivity).
  assert (H2 : ppm_decode grey_ppm = Some img) by (vm_compute; reflexivity).
  assert (H3 : has_shape 2 3 img) by (split; [reflexivity|repeat constructor]).
  assert (H4 : Forall (Forall (eq (90, 90, 90))) img) by (repeat constructor).
  split; [exact H1|]. split; [exact H2|]. split; [exact H3|].
  split; [lia|]. split; [lia|]. split; [exact H4|].
  exact (proj1 (X15_one_colour_not_detected ppm_decode "grey.png" w grey_ppm img 2 3
                  (90, 90, 90) H1 H2 H3 ltac:(lia) ltac:(lia) H4)).
Defined.


Lemma X8_payload_between_commas_witness :
  contains ","%char "data:image/png;base64" = false /\
  contains ","%char "aGVsbG8=" = false /\
  payload "data:image/png;base64,aGVsbG8=" = "aGVsbG8=" /\
  payload "data:image/png;base64,aGVsbG8=,ignored" = "aGVsbG8=".
Proof.
  assert (Hh : contains ","%char "data:image/png;base64" = false)
    by (vm_compute; reflexivity).
  assert (Hb : contains ","%char "aGVsbG8=" = false) by (vm_compute; reflexivity).
  split; [exact Hh|]. split; [exact Hb|]. split.
  - destruct (X8_payload_between_commas "data:image/png;base64,aGVsbG8=")
      as (_ & Hone & _).
    exact (Hone "data:image/png;base64" "aGVsbG8=" Hh Hb eq_refl).
  - destruct (X8_payload_between_commas "data:image/png;base64,aGVsbG8=,ignored")
      as (_ & _ & Htwo & _).
    exact (Htwo "data:image/png;base64" "aGVsbG8=" "ignored" Hh Hb eq_refl).
Defined.
